(** * Vertical image stitching with EXIF transplant: [stitchImages]

    A shallow embedding of [services/imageService.ts] (the [stitchImages]
    pipeline with its helpers [loadImage] and [readFileAsDataURL]) and the
    properties of it that the specification states.

    Modelling decisions.
    - JavaScript numbers are modelled by [number]: exact rationals extended
      with [PosInf], [NegInf] and [NaN], so that division by a zero natural
      width behaves as in JavaScript.  The rounding error of binary64 is not
      modelled; every concrete value used below (0.5, 25, 25.5, 75.5, ...) is
      exactly representable in binary64, and the general statements are about
      which operations are applied to which operands and in which order,
      about whole numbers below 2^31 and about rounding one and the same
      total.
    - The browser is an environment record [Env] of oracles (image decoder,
      2D context availability, JPEG encoder, file reader, the global
      [window.piexif], [fetch]) and a mutable [World] (the registry of live
      object URLs and a trace of observable events).
    - Asynchronous code is sequentialised: a promise is its settled outcome,
      [await] re-raises a rejection. *)

From Stdlib Require Import QArith Qround ZArith.
From stdpp Require Import gmap strings list pretty.

#[local] Set Warnings "-clear-no-such-hyp".

(** ** JavaScript numbers *)

Module JSNumber.

Inductive number : Type :=
| Fin (q : Q)
| PosInf
| NegInf
| NaN.

Definition of_Z (z : Z) : number := Fin (inject_Z z).
Definition of_N (n : N) : number := of_Z (Z.of_N n).

Definition zero : number := of_Z 0.

(** [inf_signed c] is the infinity whose sign is that of a comparison with
    zero; a zero sign gives [NaN] (as in [0 * Infinity]). *)
Definition inf_signed (c : comparison) : number :=
  match c with
  | Gt => PosInf
  | Lt => NegInf
  | Eq => NaN
  end.

(** [a + b] *)
Definition add (a b : number) : number :=
  match a, b with
  | NaN, _ | _, NaN => NaN
  | Fin x, Fin y => Fin (Qred (x + y))
  | PosInf, NegInf | NegInf, PosInf => NaN
  | PosInf, _ | _, PosInf => PosInf
  | NegInf, _ | _, NegInf => NegInf
  end.

(** [a * b] *)
Definition mul (a b : number) : number :=
  match a, b with
  | NaN, _ | _, NaN => NaN
  | Fin x, Fin y => Fin (Qred (x * y))
  | Fin x, PosInf | PosInf, Fin x => inf_signed (x ?= 0)%Q
  | Fin x, NegInf | NegInf, Fin x => inf_signed (CompOpp (x ?= 0)%Q)
  | PosInf, PosInf | NegInf, NegInf => PosInf
  | PosInf, NegInf | NegInf, PosInf => NegInf
  end.

(** [a / b]; there is no negative zero in the model, a zero divisor counts
    as [+0]. *)
Definition div (a b : number) : number :=
  match a, b with
  | NaN, _ | _, NaN => NaN
  | Fin x, Fin y =>
      if Qeq_bool y 0 then inf_signed (x ?= 0)%Q else Fin (Qred (x / y))
  | Fin _, (PosInf | NegInf) => zero
  | PosInf, Fin y => if Qle_bool 0 y then PosInf else NegInf
  | NegInf, Fin y => if Qle_bool 0 y then NegInf else PosInf
  | (PosInf | NegInf), (PosInf | NegInf) => NaN
  end.

(** [Math.round]: the nearest integer, ties towards [+Infinity]. *)
Definition round (a : number) : number :=
  match a with
  | Fin x => of_Z (Qfloor (x + (1 # 2)))
  | other => other
  end.

(** [a < b] as JavaScript evaluates it ([false] as soon as one side is
    [NaN]). *)
Definition ltb (a b : number) : bool :=
  match a, b with
  | NaN, _ | _, NaN => false
  | Fin x, Fin y => negb (Qle_bool y x)
  | NegInf, (Fin _ | PosInf) => true
  | Fin _, PosInf => true
  | _, _ => false
  end.

(** Integer part, truncating towards zero. *)
Definition trunc (x : Q) : Z := Z.quot (Qnum x) (Zpos (Qden x)).

(** Web IDL conversion of a JavaScript number to [unsigned long]: [NaN]
    and the infinities give 0, a finite number is truncated towards zero
    and reduced modulo 2^32. *)
Definition to_unsigned_long (a : number) : N :=
  match a with
  | Fin x => Z.to_N (trunc x mod 2 ^ 32)
  | _ => 0%N
  end.

(** Finite numbers above, or not below, zero. *)
Definition positive (a : number) : Prop := exists q, a = Fin q /\ (0 < q)%Q.
Definition nonneg (a : number) : Prop := exists q, a = Fin q /\ (0 <= q)%Q.

End JSNumber.

Import JSNumber.

(** ** Browser objects *)

(** A [File] is opaque to the code; what the browser makes of its bytes is
    decided by the oracles of [Env]. *)
Record File := { file_name : string; file_type : string; file_bytes : string }.

(** [types.ts]: [UploadedImage]. *)
Module UploadedImage.

Record t := {
  id : string;
  file : File;
  previewUrl : string;
  width : number;
  height : number;
  isVideo : option bool
}.

End UploadedImage.

(** The part of an [HTMLImageElement] the code reads.  An object URL
    ([blob:...]) is modelled by its serial number. *)
Record HTMLImageElement := {
  src : nat;
  naturalWidth : N;
  naturalHeight : N
}.

(** Drawing commands received by a 2D context. *)
Inductive draw_op :=
| FillRect (fillStyle : string) (x y w h : number)
| DrawImage (image : HTMLImageElement) (dx dy dw dh : number).

(** An [HTMLCanvasElement]: its bitmap size and the commands drawn so far. *)
Record Canvas := {
  canvas_width : N;
  canvas_height : N;
  canvas_ops : list draw_op
}.

(** The result of [fetch(dataUrl).blob()]: the bytes the data URL encodes,
    identified with the data URL itself. *)
Record Blob := { blob_data : string }.

(** [types.ts]: [StitchResult] (the fields the client-side path fills). *)
Module StitchResult.

Record t := {
  blob : Blob;
  url : nat;
  width : number;
  height : number
}.

End StitchResult.

(** Values thrown or passed to a rejection handler. *)
Inductive error :=
| ErrNoImages          (* new Error("没有可拼接的图片") *)
| ErrNoContext         (* new Error("无法获取画布上下文") *)
| ErrImageLoad         (* the event given to img.onerror *)
| ErrFileRead          (* the event given to reader.onerror *)
| ErrTypeError         (* property read on undefined *)
| ErrFetch             (* fetch rejected *)
| ErrThrown (what : string).  (* thrown by the EXIF library *)

(** ** EXIF library values *)

(** An EXIF dictionary: IFD name ("0th", "Exif", "GPS", "Interop", "1st")
    to tag id to value. *)
Abbreviation ExifDict := (gmap string (gmap N string)).

(** What [piexif.load] may hand back. *)
Inductive jsval :=
| JUndefined
| JNull
| JString (s : string)
| JObject (d : ExifDict).

(** [typeof v === 'object'] *)
Definition typeof_object (v : jsval) : bool :=
  match v with
  | JNull | JObject _ => true
  | JUndefined | JString _ => false
  end.

Inductive outcome (A : Type) :=
| Done (a : A)
| Thrown (e : error).
Arguments Done {A} a.
Arguments Thrown {A} e.

(** The three operations of [window.piexif] the code calls. *)
Record Piexif := {
  load : string → outcome jsval;
  dump : jsval → outcome string;
  insert : string → string → outcome string
}.

(** ** The world *)

Inductive console_level := Log | Warn | Error.

Inductive console_msg :=
| MsgExifTransferred                 (* "EXIF 数据已成功传输。" *)
| MsgExifFailed (exifError : error)  (* "无法提取或插入 EXIF 数据..." *)
| MsgNoPiexif                        (* "未找到 Piexifjs。..." *)
| MsgExifError (err : error).        (* "处理 EXIF 时出错:" *)

Inductive event :=
| CreateObjectURL (u : nat)
| RevokeObjectURL (u : nat)
| CreateCanvas
| ToDataURL (c : Canvas)
| Console (lvl : console_level) (msg : console_msg).

Record World := {
  live_urls : gset nat;      (* object URLs created and not yet revoked *)
  next_url : nat;            (* serial number of the next object URL *)
  trace : list event
}.

Definition initial_world : World :=
  {| live_urls := ∅; next_url := 0; trace := [] |}.

(** What the browser decides. *)
Record Env := {
  (* img.onload with the natural size, or img.onerror *)
  decode : File → option (N * N);
  (* whether canvas.getContext('2d') is non-null *)
  context2d : bool;
  (* canvas.toDataURL("image/jpeg", 1.0) *)
  encodeJpeg : Canvas → string;
  (* FileReader.readAsDataURL: the data URL, or reader.onerror *)
  fileDataURL : File → option string;
  (* window.piexif; None when the global is missing *)
  piexif : option Piexif;
  (* whether fetch(u) followed by res.blob() fulfils *)
  fetchable : string → bool
}.

(** ** The monad of effects: state and exceptions *)

Definition M (A : Type) : Type := World → outcome A * World.

Global Instance M_ret : MRet M := λ A a w, (Done a, w).
Global Instance M_bind : MBind M := λ A B f m w,
  match m w with
  | (Done a, w') => f a w'
  | (Thrown e, w') => (Thrown e, w')
  end.
Global Instance M_throw : MThrow error M := λ A e w, (Thrown e, w).

(** [try { body } catch (e) { handler e }] *)
Definition try_catch {A} (body : M A) (handler : error → M A) : M A := λ w,
  match body w with
  | (Done a, w') => (Done a, w')
  | (Thrown e, w') => handler e w'
  end.

(** A promise is modelled by its settled outcome. *)
Abbreviation Promise := outcome (only parsing).

Definition await {A} (p : Promise A) : M A := λ w, (p, w).

(** A call into the EXIF library: it returns or throws. *)
Definition call {A} (r : outcome A) : M A := λ w, (r, w).

(** [Promise.all]: the list of values, or a rejection when some promise
    rejects. *)
Fixpoint Promise_all {A} (ps : list (Promise A)) : Promise (list A) :=
  match ps with
  | [] => Done []
  | Thrown e :: _ => Thrown e
  | Done a :: ps' =>
      match Promise_all ps' with
      | Done l => Done (a :: l)
      | Thrown e => Thrown e
      end
  end.

Definition emit (e : event) : M unit := λ w,
  (Done (), {| live_urls := live_urls w; next_url := next_url w;
               trace := trace w ++ [e] |}).

Definition console (lvl : console_level) (msg : console_msg) : M unit :=
  emit (Console lvl msg).

(** [URL.createObjectURL] *)
Definition createObjectURL : M nat := λ w,
  let u := next_url w in
  (Done u, {| live_urls := {[u]} ∪ live_urls w; next_url := S u;
              trace := trace w ++ [CreateObjectURL u] |}).

(** [URL.revokeObjectURL] *)
Definition revokeObjectURL (u : nat) : M unit := λ w,
  (Done (), {| live_urls := live_urls w ∖ {[u]}; next_url := next_url w;
               trace := trace w ++ [RevokeObjectURL u] |}).

(** [array.forEach] with an effectful callback. *)
Fixpoint forEach {A} (f : A → M unit) (l : list A) : M unit :=
  match l with
  | [] => mret ()
  | x :: l' => f x;; forEach f l'
  end.

(** *** Canvas *)

(** Assigning a number to [canvas.width] / [canvas.height]: the attributes
    are [unsigned long], so the number is converted ([to_unsigned_long]) and a
    value above 2147483647 falls back to the attribute's default. *)
Definition canvas_dimension (default : N) (v : number) : N :=
  let n := to_unsigned_long v in
  if (n <=? 2147483647)%N then n else default.

(** [document.createElement('canvas')]: 300 by 150, blank. *)
Definition createCanvas : M Canvas :=
  emit CreateCanvas;;
  mret {| canvas_width := 300; canvas_height := 150; canvas_ops := [] |}.

Definition set_width (c : Canvas) (v : number) : Canvas :=
  {| canvas_width := canvas_dimension 300 v;
     canvas_height := canvas_height c; canvas_ops := [] |}.

Definition set_height (c : Canvas) (v : number) : Canvas :=
  {| canvas_width := canvas_width c;
     canvas_height := canvas_dimension 150 v; canvas_ops := [] |}.

Definition draw (c : Canvas) (op : draw_op) : Canvas :=
  {| canvas_width := canvas_width c; canvas_height := canvas_height c;
     canvas_ops := canvas_ops c ++ [op] |}.

(** ** The program: [services/imageService.ts] *)

(** One entry of [imageDrawData]. *)
Record DrawData := {
  img : HTMLImageElement;
  scaledHeight : number;
  scaleFactor : number
}.

Record Layout := {
  targetWidth : number;
  imageDrawData : list DrawData;
  totalHeight : number
}.

(** The callback of [loadedImages.map] without its update of
    [totalHeight]. *)
Definition drawDataOf (targetWidth : number) (i : HTMLImageElement) : DrawData :=
  let scaleFactor := div targetWidth (of_N (naturalWidth i)) in
  let scaledHeight := mul (of_N (naturalHeight i)) scaleFactor in
  {| img := i; scaledHeight := scaledHeight; scaleFactor := scaleFactor |}.

(** [loadedImages.map(img => ...)] with [totalHeight += scaledHeight] threaded
    through: the entries and the final [totalHeight]. *)
Fixpoint mapDrawData (targetWidth totalHeight : number)
    (loadedImages : list HTMLImageElement) : list DrawData * number :=
  match loadedImages with
  | [] => ([], totalHeight)
  | i :: rest =>
      let d := drawDataOf targetWidth i in
      let '(ds, total) :=
        mapDrawData targetWidth (add totalHeight (scaledHeight d)) rest in
      (d :: ds, total)
  end.

(** Step 2 of [stitchImages] (lines 45 to 59). *)
Definition computeLayout (first : HTMLImageElement)
    (loadedImages : list HTMLImageElement) : Layout :=
  let targetWidth := of_N (naturalWidth first) in
  let '(ds, total) := mapDrawData targetWidth zero loadedImages in
  {| targetWidth := targetWidth; imageDrawData := ds; totalHeight := total |}.

(** [imageDrawData.forEach] of step 4 with [currentY] threaded through. *)
Fixpoint drawImages (targetWidth currentY : number) (ds : list DrawData)
    (canvas : Canvas) : Canvas :=
  match ds with
  | [] => canvas
  | d :: rest =>
      let canvas :=
        draw canvas (DrawImage (img d) zero currentY targetWidth (scaledHeight d)) in
      drawImages targetWidth (add currentY (scaledHeight d)) rest canvas
  end.

Section Pipeline.

Variable env : Env.

(** [loadImage]: the executor runs at once and creates the object URL; the
    promise settles with the image or with the error event. *)
Definition loadImage (file : File) : M (Promise HTMLImageElement) :=
  url ← createObjectURL;
  mret (match decode env file with
        | Some (w, h) =>
            Done {| src := url; naturalWidth := w; naturalHeight := h |}
        | None => Thrown ErrImageLoad
        end).

(** [readFileAsDataURL] *)
Definition readFileAsDataURL (file : File) : M (Promise string) :=
  mret (match fileDataURL env file with
        | Some s => Done s
        | None => Thrown ErrFileRead
        end).

(** Step 1 (line 40): [await Promise.all(uploadedImages.map(...))]. *)
Definition loadAll (uploadedImages : list UploadedImage.t)
    : M (list HTMLImageElement) :=
  promises ← mapM (λ u, loadImage (UploadedImage.file u)) uploadedImages;
  await (Promise_all promises).

(** Steps 3 and 4 (lines 62 to 78): the canvas, the white background, the
    images. *)
Definition compose (plan : Layout) : M Canvas :=
  canvas ← createCanvas;
  let canvas := set_width canvas (targetWidth plan) in
  let canvas := set_height canvas (totalHeight plan) in
  if context2d env then
    let canvas :=
      draw canvas (FillRect "#FFFFFF" zero zero
                     (of_N (canvas_width canvas)) (of_N (canvas_height canvas))) in
    mret (drawImages (targetWidth plan) zero (imageDrawData plan) canvas)
  else mthrow ErrNoContext.

(** Step 5: [canvas.toDataURL("image/jpeg", 1.0)]. *)
Definition toDataURL (canvas : Canvas) : M string :=
  emit (ToDataURL canvas);;
  mret (encodeJpeg env canvas).

(** Step 6 (lines 86 to 115); the value is [finalDataUrl] after the outer
    [try].  The
    variable is assigned only by the statement after [piexif.insert]
    returned, and nothing after that assignment throws. *)
Definition transplantExif (uploadedImages : list UploadedImage.t)
    (stitchedDataUrl : string) : M string :=
  try_catch
    (match uploadedImages with
     | [] => mthrow ErrTypeError
     | u0 :: _ =>
         p ← readFileAsDataURL (UploadedImage.file u0);
         firstImageDataUrl ← await p;
         match piexif env with
         | Some px =>
             try_catch
               (exifObj ← call (load px firstImageDataUrl);
                if typeof_object exifObj then
                  exifBytes ← call (dump px exifObj);
                  finalDataUrl ← call (insert px exifBytes stitchedDataUrl);
                  console Log MsgExifTransferred;;
                  mret finalDataUrl
                else mret stitchedDataUrl)
               (λ exifError,
                  console Warn (MsgExifFailed exifError);;
                  mret stitchedDataUrl)
         | None =>
             console Warn MsgNoPiexif;;
             mret stitchedDataUrl
         end
     end)
    (λ err, console Error (MsgExifError err);; mret stitchedDataUrl).

(** [fetch(finalDataUrl)] then [res.blob()]. *)
Definition fetchBlob (dataUrl : string) : M Blob :=
  if fetchable env dataUrl then mret {| blob_data := dataUrl |}
  else mthrow ErrFetch.

(** Step 7, the cleanup and the result (lines 118 to 130). *)
Definition export (plan : Layout) (loadedImages : list HTMLImageElement)
    (finalDataUrl : string) : M StitchResult.t :=
  blob ← fetchBlob finalDataUrl;
  url ← createObjectURL;
  forEach (λ i, revokeObjectURL (src i)) loadedImages;;
  mret {| StitchResult.blob := blob;
          StitchResult.url := url;
          StitchResult.width := targetWidth plan;
          StitchResult.height := round (totalHeight plan) |}.

(** Steps 2 to 5 on the loaded images. *)
Definition render (loadedImages : list HTMLImageElement) : M (Layout * string) :=
  match loadedImages with
  | [] => mthrow ErrTypeError
  | first :: _ =>
      let plan := computeLayout first loadedImages in
      canvas ← compose plan;
      stitchedDataUrl ← toDataURL canvas;
      mret (plan, stitchedDataUrl)
  end.

Definition stitchImages (uploadedImages : list UploadedImage.t)
    : M StitchResult.t :=
  if decide (length uploadedImages = 0) then mthrow ErrNoImages
  else
    loadedImages ← loadAll uploadedImages;
    '(plan, stitchedDataUrl) ← render loadedImages;
    finalDataUrl ← transplantExif uploadedImages stitchedDataUrl;
    export plan loadedImages finalDataUrl.

End Pipeline.

(** ** Specification functions: what a run computes *)

Import UploadedImage (file).

(** The promises returned by [uploadedImages.map(u => loadImage(u.file))]
    when the next object URL is [start]. *)
Fixpoint promisesFrom (env : Env) (start : nat) (us : list UploadedImage.t)
    : list (Promise HTMLImageElement) :=
  match us with
  | [] => []
  | u :: us' =>
      match decode env (file u) with
      | Some (w, h) => Done {| src := start; naturalWidth := w; naturalHeight := h |}
      | None => Thrown ErrImageLoad
      end :: promisesFrom env (S start) us'
  end.

(** The images of the files that decode. *)
Fixpoint imagesFrom (env : Env) (start : nat) (us : list UploadedImage.t)
    : list HTMLImageElement :=
  match us with
  | [] => []
  | u :: us' =>
      match decode env (file u) with
      | Some (w, h) =>
          {| src := start; naturalWidth := w; naturalHeight := h |}
            :: imagesFrom env (S start) us'
      | None => imagesFrom env (S start) us'
      end
  end.

Definition all_decode (env : Env) (us : list UploadedImage.t) : Prop :=
  Forall (λ u, is_Some (decode env (file u))) us.

Definition some_fails (env : Env) (us : list UploadedImage.t) : Prop :=
  Exists (λ u, decode env (file u) = None) us.

(** The world after [n] calls of [URL.createObjectURL]. *)
Definition created (n : nat) (w : World) : World :=
  {| live_urls := list_to_set (seq (next_url w) n) ∪ live_urls w;
     next_url := next_url w + n;
     trace := trace w ++ (CreateObjectURL <$> seq (next_url w) n) |}.

(** The world after revoking the object URLs [urls] in order. *)
Definition revoked (urls : list nat) (w : World) : World :=
  {| live_urls := live_urls w ∖ list_to_set urls;
     next_url := next_url w;
     trace := trace w ++ (RevokeObjectURL <$> urls) |}.

Definition emitted (es : list event) (w : World) : World :=
  {| live_urls := live_urls w; next_url := next_url w; trace := trace w ++ es |}.

(** The layout of a list of loaded images. *)
Definition planOf (loadedImages : list HTMLImageElement) : Layout :=
  match loadedImages with
  | [] => {| targetWidth := NaN; imageDrawData := []; totalHeight := zero |}
  | first :: _ => computeLayout first loadedImages
  end.

(** [yOffset] of the [i]-th entry: the sum of the scaled heights before
    it, added up from 0 in input order. *)
Definition yOffset (ds : list DrawData) (i : nat) : number :=
  foldl add zero (scaledHeight <$> take i ds).

(** The canvas as [compose] leaves it when a 2D context is available. *)
Definition paintedCanvas (plan : Layout) : Canvas :=
  let w := canvas_dimension 300 (targetWidth plan) in
  let h := canvas_dimension 150 (totalHeight plan) in
  {| canvas_width := w; canvas_height := h;
     canvas_ops :=
       FillRect "#FFFFFF" zero zero (of_N w) (of_N h)
         :: imap (λ i d, DrawImage (img d) zero (yOffset (imageDrawData plan) i)
                           (targetWidth plan) (scaledHeight d))
              (imageDrawData plan) |}.

(** A console message. *)
Definition is_console (e : event) : Prop := ∃ lvl msg, e = Console lvl msg.

(** Every live object URL was handed out before. *)
Definition fresh_urls (w : World) : Prop := ∀ u, u ∈ live_urls w → u < next_url w.

(** The data URL of the composite a run produces when its images all
    decode and a 2D context is available. *)
Definition stitchedOf (env : Env) (us : list UploadedImage.t) (w : World) : string :=
  encodeJpeg env (paintedCanvas (planOf (imagesFrom env (next_url w) us))).

(** A failure while reading the first file, or while extracting,
    serializing or injecting its metadata. *)
Inductive metadata_failed (env : Env) (stitchedDataUrl : string)
    : list UploadedImage.t → Prop :=
| read_failed u0 rest :
    fileDataURL env (file u0) = None →
    metadata_failed env stitchedDataUrl (u0 :: rest)
| codec_missing u0 rest :
    piexif env = None →
    metadata_failed env stitchedDataUrl (u0 :: rest)
| load_failed u0 rest first px e :
    fileDataURL env (file u0) = Some first → piexif env = Some px →
    load px first = Thrown e →
    metadata_failed env stitchedDataUrl (u0 :: rest)
| dump_failed u0 rest first px exifObj e :
    fileDataURL env (file u0) = Some first → piexif env = Some px →
    load px first = Done exifObj → typeof_object exifObj = true →
    dump px exifObj = Thrown e →
    metadata_failed env stitchedDataUrl (u0 :: rest)
| insert_failed u0 rest first px exifObj exifBytes e :
    fileDataURL env (file u0) = Some first → piexif env = Some px →
    load px first = Done exifObj → typeof_object exifObj = true →
    dump px exifObj = Done exifBytes →
    insert px exifBytes stitchedDataUrl = Thrown e →
    metadata_failed env stitchedDataUrl (u0 :: rest).

(** A dictionary that is present but carries no tag. *)
Definition no_tags (d : ExifDict) : Prop :=
  ∀ ifd tags, d !! ifd = Some tags → tags = ∅.




Definition positive_size (i : HTMLImageElement) : Prop :=
  (0 < naturalWidth i)%N ∧ (0 < naturalHeight i)%N.

(** A number as the operations of [JSNumber] return it: a finite one is a
    fraction in lowest terms. *)
Definition canonical (a : number) : Prop :=
  match a with
  | Fin q => Qred q = q
  | _ => True
  end.

(** ** A concrete browser for examples *)

(** The dictionary of a file whose only tag is Make (0th IFD, tag 271). *)
Definition canon : ExifDict := {[ "0th" := {[ 271%N := "Canon" ]} ]}.

(** The dictionary of a file with a metadata segment and no tag in it. *)
Definition empty_exif : ExifDict :=
  {[ "0th" := ∅; "Exif" := ∅; "GPS" := ∅; "Interop" := ∅; "1st" := ∅ ]}.

(** A codec for a toy stream format: a metadata segment is a prefix
    [EXIF:<bytes>;] of the stream. *)
Definition fake_piexif : Piexif := {|
  load := λ dataUrl,
    if String.prefix "EXIF:Canon;" dataUrl then Done (JObject canon)
    else if String.prefix "EXIF:none;" dataUrl then Done (JObject empty_exif)
    else Thrown (ErrThrown "invalid file data");
  dump := λ v,
    match v with
    | JObject d =>
        if decide (d = canon) then Done "Canon"
        else if decide (d = empty_exif) then Done "none"
        else Thrown (ErrThrown "unsupported tag")
    | _ => Thrown (ErrThrown "not a dictionary")
    end;
  insert := λ exifBytes jpeg, Done ("EXIF:" +:+ exifBytes +:+ ";" +:+ jpeg)
|}.




(** Files decode according to their name. *)
Definition test_decode (f : File) : option (N * N) :=
  if String.eqb (file_name f) "a" then Some (100, 50)%N
  else if String.eqb (file_name f) "b" then Some (200, 50)%N
  else if String.eqb (file_name f) "c" then Some (200, 51)%N
  else if String.eqb (file_name f) "flat" then Some (100, 0)%N
  else None.

Definition test_env (ctx : bool) (px : option Piexif) : Env := {|
  decode := test_decode;
  context2d := ctx;
  encodeJpeg := λ _, "JPEG";
  fileDataURL := λ f, Some (file_bytes f);
  piexif := px;
  fetchable := λ _, true
|}.

Definition upload (name bytes : string) : UploadedImage.t := {|
  UploadedImage.id := name;
  UploadedImage.file :=
    {| file_name := name; file_type := "image/jpeg"; file_bytes := bytes |};
  UploadedImage.previewUrl := "";
  UploadedImage.width := zero;
  UploadedImage.height := zero;
  UploadedImage.isVideo := None
|}.

Definition image (u : nat) (w h : N) : HTMLImageElement :=
  {| src := u; naturalWidth := w; naturalHeight := h |}.

(** The sum of the natural heights of a list of images. *)
Definition heightSum (imgs : list HTMLImageElement) : N :=
  foldr (λ i acc, (naturalHeight i + acc)%N) 0%N imgs.

(** ** The page: [App.tsx] and [components/ImageUploader.tsx] *)

Module App.

Inductive Mode := client | server.

Inductive Direction := up | down.

(** [str.startsWith(prefix)] and [str.endsWith(suffix)], for the ASCII
    needles of the code. *)
Definition startsWith (s prefix : string) : bool := String.prefix prefix s.

Definition endsWith (s suffix : string) : bool :=
  let n := String.length s in
  let m := String.length suffix in
  (m <=? n) && String.eqb (String.substring (n - m) m s) suffix.

(** *** [ImageUploader]: which files reach [onFilesSelected] *)

Inductive UploaderOutcome :=
| FilesSelected (files : list File)   (* onFilesSelected(files) *)
| ImagesOnlyAlert                     (* alert("纯图拼接模式仅支持图片文件。") *)
| Nothing.

(** [handleFiles] (lines 41 to 54). *)
Definition handleFiles (mode : Mode) (files : list File) : UploaderOutcome :=
  match mode with
  | server => FilesSelected files
  | client =>
      let validImages :=
        List.filter (λ file, startsWith (file_type file) "image/") files in
      if 0 <? length validImages then FilesSelected validImages
      else ImagesOnlyAlert
  end.

(** [handleDrop] (lines 23 to 30); the file list of the event may be
    missing. *)
Definition handleDrop (mode : Mode) (files : option (list File)) : UploaderOutcome :=
  match files with
  | Some fs => if 0 <? length fs then handleFiles mode fs else Nothing
  | None => Nothing
  end.

(** [handleFileInput] (lines 32 to 39); resetting the input element has no
    effect on the outcome. *)
Definition handleFileInput (mode : Mode) (files : option (list File))
    : UploaderOutcome :=
  match files with
  | Some fs => if 0 <? length fs then handleFiles mode fs else Nothing
  | None => Nothing
  end.

(** *** The state of [App] *)

(** The two shapes in which the code builds a [StitchResult]: the one
    [stitchImages] returns, and the one made of the backend's reply (with
    [isLivePhoto: true]). *)
Inductive AppResult :=
| ClientResult (res : StitchResult.t)
| LiveResult (url jpgUrl movUrl : string) (width height : number).

Record State := {
  mode : Mode;
  images : list UploadedImage.t;
  isProcessing : bool;
  result : option AppResult;
  backendUrl : string
}.

(** What the request to [`${backendUrl}/stitch-live`] comes to. *)
Inductive BackendReply :=
| Rejected (message : string)   (* fetch, response.text() or response.json() rejects *)
| NotOk (errText : string)      (* response.ok is false *)
| Json (status jpg_url mov_url : string) (width height : number).

(** The errors of the server branch of [handleStitch]. *)
Inductive backend_error :=
| RequestRejected (message : string)
| BackendError (errText : string)     (* new Error(`后端错误: ${errText}`) *)
| UnknownResponse.                     (* new Error("未知响应格式") *)

Inductive alert_msg :=
| AlertImagesOnly
| AlertStitchFailed                        (* "图片拼接失败，请重试。" *)
| AlertBackendFailed (e : backend_error).  (* `请求后端失败: ${error.message}...` *)

Inductive logged_error :=
| StitchError (e : error)
| BackendFailure (e : backend_error).

(** The page around the state: the browser world of the service, the
    number of [Math.random] calls so far, the alerts shown and the errors
    written by [console.error]. *)
Record Page := {
  browser : World;
  randoms : nat;
  alerts : list alert_msg;
  logged : list logged_error
}.

(** What the platform decides for the page. *)
Record Host := {
  env : Env;
  (* Math.random().toString(36).substr(2, 9), by call number *)
  randomId : nat → string;
  (* String.prototype.toLowerCase *)
  toLowerCase : string → string;
  (* String.prototype.localeCompare *)
  localeCompare : string → string → Z;
  (* Array.prototype.sort with a comparator *)
  arraySort : (UploadedImage.t → UploadedImage.t → Z) →
              list UploadedImage.t → list UploadedImage.t;
  (* the POST of the files to the backend *)
  backend : string → list File → BackendReply
}.

(** The string of the object URL with serial number [u]. *)
Definition blob_url (u : nat) : string := "blob:" +:+ pretty u.

(** [URL.revokeObjectURL(url)] for a URL given as a string: the live
    object URL with that string is revoked; for a string that is no live
    object URL nothing happens. *)
Definition revokeURL (url : string) : M unit := λ w,
  forEach revokeObjectURL
    (elements (filter (λ u, blob_url u = url) (live_urls w))) w.

Definition P (A : Type) : Type := Page → outcome A * Page.

#[global] Instance P_ret : MRet P := λ A a pg, (Done a, pg).
#[global] Instance P_bind : MBind P := λ A B f m pg,
  match m pg with
  | (Done a, pg') => f a pg'
  | (Thrown e, pg') => (Thrown e, pg')
  end.

(** Running a browser action on the page. *)
Definition inBrowser {A} (m : M A) : P A := λ pg,
  let '(r, w) := m (browser pg) in
  (r, {| browser := w; randoms := randoms pg; alerts := alerts pg;
         logged := logged pg |}).

(** [try { body } catch (error) { handler error }] on the page. *)
Definition tryCatch {A} (body : P A) (handler : error → P A) : P A := λ pg,
  match body pg with
  | (Done a, pg') => (Done a, pg')
  | (Thrown e, pg') => handler e pg'
  end.

Definition alert (a : alert_msg) : P unit := λ pg,
  (Done (), {| browser := browser pg; randoms := randoms pg;
               alerts := alerts pg ++ [a]; logged := logged pg |}).

Definition consoleError (e : logged_error) : P unit := λ pg,
  (Done (), {| browser := browser pg; randoms := randoms pg;
               alerts := alerts pg; logged := logged pg ++ [e] |}).

Section Handlers.

Variable host : Host.

Definition mathRandomId : P string := λ pg,
  (Done (randomId host (randoms pg)),
   {| browser := browser pg; randoms := S (randoms pg); alerts := alerts pg;
      logged := logged pg |}).

(** The [isVideo] field of a new entry (line 31). *)
Definition isVideoFile (f : File) : bool :=
  startsWith (file_type f) "video/"
  || endsWith (toLowerCase host (file_name f)) ".mov"
  || endsWith (toLowerCase host (file_name f)) ".mp4".

(** The callback of [files.map] (lines 25 to 32). *)
Definition newImage (f : File) : P UploadedImage.t :=
  id ← mathRandomId;
  u ← inBrowser createObjectURL;
  mret {| UploadedImage.id := id;
          UploadedImage.file := f;
          UploadedImage.previewUrl := blob_url u;
          UploadedImage.width := zero;
          UploadedImage.height := zero;
          UploadedImage.isVideo := Some (isVideoFile f) |}.

(** [handleFilesSelected] (lines 24 to 42). *)
Definition handleFilesSelected (files : list File) (st : State) : P State :=
  newImages ← mapM newImage files;
  let combined := images st ++ newImages in
  let combined :=
    match mode st with
    | server =>
        arraySort host
          (λ a b, localeCompare host (file_name (file a)) (file_name (file b)))
          combined
    | client => combined
    end in
  mret {| mode := mode st; images := combined; isProcessing := isProcessing st;
          result := None; backendUrl := backendUrl st |}.

(** [removeImage] (lines 44 to 51). *)
Definition removeImage (id : string) (st : State) : P State :=
  match List.find (λ i, String.eqb (UploadedImage.id i) id) (images st) with
  | Some i => inBrowser (revokeURL (UploadedImage.previewUrl i))
  | None => mret ()
  end;;
  mret {| mode := mode st;
          images := List.filter (λ i, negb (String.eqb (UploadedImage.id i) id))
                      (images st);
          isProcessing := isProcessing st; result := None;
          backendUrl := backendUrl st |}.

(** [moveImage] (lines 53 to 64).  The buttons pass the index of a listed
    image.  For an index outside the list the swap would write [undefined]
    entries into the array, which the type of the state excludes: [None]. *)
Definition moveImage (index : nat) (direction : Direction) (st : State)
    : option State :=
  let atEdge :=
    match direction with
    | up => index =? 0
    | down => (Z.of_nat index =? Z.of_nat (length (images st)) - 1)%Z
    end in
  if atEdge then Some st
  else
    let targetIndex :=
      match direction with up => index - 1 | down => index + 1 end in
    match images st !! index, images st !! targetIndex with
    | Some a, Some b =>
        Some {| mode := mode st;
                images := <[targetIndex := a]> (<[index := b]> (images st));
                isProcessing := isProcessing st; result := None;
                backendUrl := backendUrl st |}
    | _, _ => None
    end.

(** [clearAll] (lines 164 to 170); [confirmed] is the answer to the
    dialog. *)
Definition clearAll (confirmed : bool) (st : State) : P State :=
  if confirmed then
    inBrowser (forEach (λ i, revokeURL (UploadedImage.previewUrl i)) (images st));;
    mret {| mode := mode st; images := []; isProcessing := isProcessing st;
            result := None; backendUrl := backendUrl st |}
  else mret st.

Definition otherMode (m : Mode) : Mode :=
  match m with client => server | server => client end.

(** [toggleMode] (lines 172 to 178): its own dialog, then the dialog of
    [clearAll]. *)
Definition toggleMode (confirmSwitch confirmClear : bool) (st : State) : P State :=
  if 0 <? length (images st) then
    if negb confirmSwitch then mret st
    else
      st' ← clearAll confirmClear st;
      mret {| mode := otherMode (mode st'); images := images st';
              isProcessing := isProcessing st'; result := result st';
              backendUrl := backendUrl st' |}
  else
    mret {| mode := otherMode (mode st); images := images st;
            isProcessing := isProcessing st; result := result st;
            backendUrl := backendUrl st |}.

Definition finished (st : State) (r : option AppResult) : State :=
  {| mode := mode st; images := images st; isProcessing := false;
     result := r; backendUrl := backendUrl st |}.

(** [handleStitch] (lines 66 to 126), up to the end of the work it starts:
    the state once the timer callback, or the request, has completed. *)
Definition handleStitch (st : State) : P State :=
  if length (images st) =? 0 then mret st
  else
    match mode st with
    | client =>
        tryCatch
          (res ← inBrowser (stitchImages (env host) (images st));
           mret (finished st (Some (ClientResult res))))
          (λ error,
             consoleError (StitchError error);;
             alert AlertStitchFailed;;
             mret (finished st None))
    | server =>
        let failed (e : backend_error) : P State :=
          consoleError (BackendFailure e);;
          alert (AlertBackendFailed e);;
          mret (finished st None) in
        match backend host (backendUrl st +:+ "/stitch-live")
                (file <$> images st) with
        | Rejected message => failed (RequestRejected message)
        | NotOk errText => failed (BackendError errText)
        | Json status jpg_url mov_url width height =>
            if String.eqb status "success" then
              mret (finished st
                      (Some (LiveResult (backendUrl st +:+ jpg_url)
                               (backendUrl st +:+ jpg_url)
                               (backendUrl st +:+ mov_url) width height)))
            else failed UnknownResponse
        end
    end.

(** The uploader wired to the page (line 243): a drop or a file dialog. *)
Definition onUpload (files : option (list File)) (st : State) : P State :=
  match handleDrop (mode st) files with
  | FilesSelected fs => handleFilesSelected fs st
  | ImagesOnlyAlert => alert AlertImagesOnly;; mret st
  | Nothing => mret st
  end.

End Handlers.

(** The entries [handleFilesSelected] makes of [files] when [r] calls of
    [Math.random] were made and [u] is the next object URL. *)
Fixpoint newImagesFrom (host : Host) (r u : nat) (files : list File)
    : list UploadedImage.t :=
  match files with
  | [] => []
  | f :: rest =>
      {| UploadedImage.id := randomId host r;
         UploadedImage.file := f;
         UploadedImage.previewUrl := blob_url u;
         UploadedImage.width := zero;
         UploadedImage.height := zero;
         UploadedImage.isVideo := Some (isVideoFile host f) |}
        :: newImagesFrom host (S r) (S u) rest
  end.

(** The page after [n] new entries were made. *)
Definition uploaded (n : nat) (pg : Page) : Page :=
  {| browser := created n (browser pg); randoms := randoms pg + n;
     alerts := alerts pg; logged := logged pg |}.

(** The world after [URL.revokeObjectURL] of the URL with string [url]. *)
Definition afterRevoke (url : string) (w : World) : World :=
  revoked (elements (filter (λ u, blob_url u = url) (live_urls w))) w.

(** The state [removeImage] sets. *)
Definition without (id : string) (st : State) : State :=
  {| mode := mode st;
     images := List.filter (λ i, negb (String.eqb (UploadedImage.id i) id))
                 (images st);
     isProcessing := isProcessing st; result := None;
     backendUrl := backendUrl st |}.

Definition withBrowser (w : World) (pg : Page) : Page :=
  {| browser := w; randoms := randoms pg; alerts := alerts pg;
     logged := logged pg |}.

(** The world after revoking the URLs with the strings [urls], in order. *)
Definition afterRevokes (urls : list string) (w : World) : World :=
  foldl (λ w0 url, afterRevoke url w0) w urls.

(** The state [clearAll] sets. *)
Definition cleared (st : State) : State :=
  {| mode := mode st; images := []; isProcessing := isProcessing st;
     result := None; backendUrl := backendUrl st |}.

Definition switched (st : State) : State :=
  {| mode := otherMode (mode st); images := images st;
     isProcessing := isProcessing st; result := result st;
     backendUrl := backendUrl st |}.

(** One use of the page: a handler runs on the current state. *)
Inductive step (host : Host) : State * Page → State * Page → Prop :=
| step_upload files st pg st' pg' :
    onUpload host files st pg = (Done st', pg') →
    step host (st, pg) (st', pg')
| step_remove id st pg st' pg' :
    removeImage id st pg = (Done st', pg') →
    step host (st, pg) (st', pg')
| step_move index direction st pg st' :
    moveImage index direction st = Some st' →
    step host (st, pg) (st', pg)
| step_clear confirmed st pg st' pg' :
    clearAll confirmed st pg = (Done st', pg') →
    step host (st, pg) (st', pg')
| step_toggle confirmSwitch confirmClear st pg st' pg' :
    toggleMode confirmSwitch confirmClear st pg = (Done st', pg') →
    step host (st, pg) (st', pg')
| step_stitch st pg st' pg' :
    handleStitch host st pg = (Done st', pg') →
    step host (st, pg) (st', pg').

(** A file the client mode accepts. *)
Definition image_typed (f : File) : Prop :=
  startsWith (file_type f) "image/" = true.

(** The sort of the platform returns the elements it was given. *)
Definition sort_permutes (host : Host) : Prop :=
  ∀ cmp l, arraySort host cmp l ≡ₚ l.

(** Every entry has a preview URL of its own that is live. *)
Definition previews_ok (imgs : list UploadedImage.t) (w : World) : Prop :=
  fresh_urls w
  ∧ NoDup (UploadedImage.previewUrl <$> imgs)
  ∧ ∀ i, i ∈ imgs →
         ∃ u, u ∈ live_urls w ∧ UploadedImage.previewUrl i = blob_url u.

Definition previews_live (st : State) (pg : Page) : Prop :=
  previews_ok (images st) (browser pg).

Definition initial_state : State :=
  {| mode := server; images := []; isProcessing := false; result := None;
     backendUrl := "http://localhost:8000" |}.

Definition initial_page : Page :=
  {| browser := initial_world; randoms := 0; alerts := []; logged := [] |}.

(** A host for examples: ids [id0], [id1], ...; the sort leaves the list
    as it is. *)
Definition test_host (e : Env) : Host :=
  {| env := e;
     randomId := λ n, "id" +:+ pretty n;
     toLowerCase := λ s, s;
     localeCompare := λ _ _, 0%Z;
     arraySort := λ _ l, l;
     backend := λ _ _, Rejected "offline" |}.

End App.

(** ** Running the monad *)

Lemma run_bind {A B} (m : M A) (f : A → M B) w a w' :
  m w = (Done a, w') → (m ≫= f) w = f a w'.
Proof. intros H. unfold mbind, M_bind. by rewrite H. Qed.

Lemma run_bind_thrown {A B} (m : M A) (f : A → M B) w e w' :
  m w = (Thrown e, w') → (m ≫= f) w = (Thrown e, w').
Proof. intros H. unfold mbind, M_bind. by rewrite H. Qed.

Lemma world_eq (w1 w2 : World) :
  live_urls w1 = live_urls w2 → next_url w1 = next_url w2 →
  trace w1 = trace w2 → w1 = w2.
Proof. destruct w1, w2; simpl; by intros -> -> ->. Qed.

(** ** Step 1: loading *)

Lemma loadImage_run env f w :
  loadImage env f w
  = (Done match decode env f with
          | Some (iw, ih) =>
              Done {| src := next_url w; naturalWidth := iw; naturalHeight := ih |}
          | None => Thrown ErrImageLoad
          end,
     {| live_urls := {[next_url w]} ∪ live_urls w; next_url := S (next_url w);
        trace := trace w ++ [CreateObjectURL (next_url w)] |}).
Proof. reflexivity. Qed.

Lemma mapM_loadImage env us w :
  mapM (λ u, loadImage env (file u)) us w
  = (Done (promisesFrom env (next_url w) us), created (length us) w).
Proof.
  revert w. induction us as [|u us IH]; intros w.
  - simpl. unfold mret, M_ret. f_equal. apply world_eq; simpl.
    + set_solver.
    + lia.
    + by rewrite app_nil_r.
  - change (mapM ?f (u :: us)) with (y ← f u; k ← mapM f us; mret (y :: k)).
    rewrite (run_bind _ _ _ _ _ (loadImage_run env (file u) w)).
    rewrite (run_bind _ _ _ _ _ (IH _)).
    unfold mret, M_ret. cbn [promisesFrom length next_url]. f_equal.
    apply world_eq; cbn [created live_urls next_url trace seq fmap list_fmap].
    + rewrite list_to_set_cons. set_solver.
    + lia.
    + by rewrite <- app_assoc.
Qed.

Lemma Promise_all_decoded env start us :
  all_decode env us →
  Promise_all (promisesFrom env start us) = Done (imagesFrom env start us).
Proof.
  intros H. revert start. induction H as [|u us [[w h] Hu] ? IH]; intros start.
  - done.
  - simpl. rewrite Hu. by rewrite IH.
Qed.

Lemma Promise_all_failed env start us :
  some_fails env us →
  Promise_all (promisesFrom env start us) = Thrown ErrImageLoad.
Proof.
  intros H. revert start. induction H as [u us Hu|u us ? IH]; intros start.
  - simpl. by rewrite Hu.
  - simpl. destruct (decode env (file u)) as [[w h]|]; [|done]. by rewrite IH.
Qed.

Lemma loadAll_decoded env us w :
  all_decode env us →
  loadAll env us w
  = (Done (imagesFrom env (next_url w) us), created (length us) w).
Proof.
  intros H. unfold loadAll.
  rewrite (run_bind _ _ _ _ _ (mapM_loadImage env us w)).
  unfold await. by rewrite Promise_all_decoded.
Qed.

Lemma loadAll_failed env us w :
  some_fails env us →
  loadAll env us w = (Thrown ErrImageLoad, created (length us) w).
Proof.
  intros H. unfold loadAll.
  rewrite (run_bind _ _ _ _ _ (mapM_loadImage env us w)).
  unfold await. by rewrite Promise_all_failed.
Qed.

Lemma imagesFrom_src env start us :
  all_decode env us → src <$> imagesFrom env start us = seq start (length us).
Proof.
  intros H. revert start. induction H as [|u us [[w h] Hu] ? IH]; intros start.
  - done.
  - simpl. rewrite Hu. simpl. by rewrite IH.
Qed.

Lemma imagesFrom_length env start us :
  all_decode env us → length (imagesFrom env start us) = length us.
Proof.
  intros H. rewrite <- (length_fmap src), imagesFrom_src by done.
  by rewrite length_seq.
Qed.

(** ** Step 2: layout *)

Lemma mapDrawData_spec tw acc imgs :
  mapDrawData tw acc imgs
  = (drawDataOf tw <$> imgs,
     foldl add acc (scaledHeight <$> (drawDataOf tw <$> imgs))).
Proof.
  revert acc. induction imgs as [|i imgs IH]; intros acc; [done|].
  cbn [mapDrawData]. rewrite IH. reflexivity.
Qed.

Lemma computeLayout_spec first imgs :
  let tw := of_N (naturalWidth first) in
  computeLayout first imgs
  = {| targetWidth := tw;
       imageDrawData := drawDataOf tw <$> imgs;
       totalHeight := foldl add zero (scaledHeight <$> (drawDataOf tw <$> imgs)) |}.
Proof. intros tw. unfold computeLayout. fold tw. by rewrite mapDrawData_spec. Qed.

(** ** Steps 3 and 4: drawing *)

Lemma drawImages_spec tw y ds c :
  drawImages tw y ds c
  = {| canvas_width := canvas_width c; canvas_height := canvas_height c;
       canvas_ops :=
         canvas_ops c
           ++ imap (λ i d, DrawImage (img d) zero
                             (foldl add y (scaledHeight <$> take i ds))
                             tw (scaledHeight d)) ds |}.
Proof.
  revert y c. induction ds as [|d ds IH]; intros y c.
  - destruct c. simpl. by rewrite app_nil_r.
  - cbn [drawImages]. rewrite IH. cbn [draw canvas_width canvas_height canvas_ops imap].
    f_equal. rewrite <- app_assoc. reflexivity.
Qed.

Lemma compose_run env plan w :
  context2d env = true →
  compose env plan w = (Done (paintedCanvas plan), emitted [CreateCanvas] w).
Proof.
  intros Hctx. unfold compose. rewrite Hctx.
  unfold createCanvas, emit, mbind, M_bind, mret, M_ret. cbn.
  by rewrite drawImages_spec.
Qed.

Lemma compose_no_context env plan w :
  context2d env = false →
  compose env plan w = (Thrown ErrNoContext, emitted [CreateCanvas] w).
Proof. intros Hctx. unfold compose. by rewrite Hctx. Qed.

(** ** Step 7: cleanup *)

Lemma forEach_revoke imgs w :
  forEach (λ i, revokeObjectURL (src i)) imgs w
  = (Done (), revoked (src <$> imgs) w).
Proof.
  revert w. induction imgs as [|i imgs IH]; intros w.
  - unfold forEach, mret, M_ret. f_equal. apply world_eq; simpl.
    + set_solver.
    + done.
    + by rewrite app_nil_r.
  - cbn [forEach]. unfold mbind, M_bind, revokeObjectURL at 1. rewrite IH.
    f_equal. apply world_eq; simpl.
    + set_solver.
    + done.
    + by rewrite <- app_assoc.
Qed.

Lemma export_run env plan imgs finalDataUrl w :
  fetchable env finalDataUrl = true →
  export env plan imgs finalDataUrl w
  = (Done {| StitchResult.blob := {| blob_data := finalDataUrl |};
             StitchResult.url := next_url w;
             StitchResult.width := targetWidth plan;
             StitchResult.height := round (totalHeight plan) |},
     revoked (src <$> imgs) (created 1 w)).
Proof.
  intros Hfetch. unfold export, fetchBlob. rewrite Hfetch.
  unfold mbind, M_bind, mret, M_ret, createObjectURL.
  rewrite forEach_revoke. f_equal.
  apply world_eq; simpl; [set_solver|lia|done].
Qed.

Lemma export_unfetchable env plan imgs finalDataUrl w :
  fetchable env finalDataUrl = false →
  export env plan imgs finalDataUrl w = (Thrown ErrFetch, w).
Proof. intros Hfetch. unfold export, fetchBlob. by rewrite Hfetch. Qed.

(** ** Steps 1 to 5 of a run whose images all decode *)

Lemma render_run env imgs w :
  imgs ≠ [] → context2d env = true →
  render env imgs w
  = (Done (planOf imgs, encodeJpeg env (paintedCanvas (planOf imgs))),
     emitted [CreateCanvas; ToDataURL (paintedCanvas (planOf imgs))] w).
Proof.
  intros Hne Hctx. destruct imgs as [|first rest]; [done|].
  unfold render. cbn [planOf].
  rewrite (run_bind _ _ _ _ _ (compose_run env _ w Hctx)).
  unfold toDataURL, emit, mbind, M_bind, mret, M_ret. simpl.
  f_equal. apply world_eq; simpl; [done|done|by rewrite <- app_assoc].
Qed.

Lemma stitchImages_prefix env us w :
  us ≠ [] → all_decode env us → context2d env = true →
  let imgs := imagesFrom env (next_url w) us in
  let plan := planOf imgs in
  let canvas := paintedCanvas plan in
  stitchImages env us w
  = (finalDataUrl ← transplantExif env us (encodeJpeg env canvas);
     export env plan imgs finalDataUrl)
      (emitted [CreateCanvas; ToDataURL canvas] (created (length us) w)).
Proof.
  intros Hne Hdec Hctx imgs plan canvas. unfold stitchImages.
  destruct (decide (length us = 0)) as [Hlen|_].
  { by destruct us. }
  rewrite (run_bind _ _ _ _ _ (loadAll_decoded env us w Hdec)).
  assert (imgs ≠ []) as Himgs.
  { intros Heq. apply (f_equal length) in Heq.
    unfold imgs in Heq. rewrite imagesFrom_length in Heq by done.
    by destruct us. }
  rewrite (run_bind _ _ _ _ _ (render_run env imgs _ Himgs Hctx)).
  reflexivity.
Qed.

(** ** Aborted runs *)

Lemma stitchImages_load_aborts env us w :
  some_fails env us →
  stitchImages env us w = (Thrown ErrImageLoad, created (length us) w).
Proof.
  intros Hfail. unfold stitchImages. destruct (decide (length us = 0)) as [Hlen|_].
  - destruct us; [|done]. by apply Exists_nil in Hfail.
  - by rewrite (run_bind_thrown _ _ _ _ _ (loadAll_failed env us w Hfail)).
Qed.

Lemma stitchImages_no_context env us w :
  us ≠ [] → all_decode env us → context2d env = false →
  stitchImages env us w
  = (Thrown ErrNoContext, emitted [CreateCanvas] (created (length us) w)).
Proof.
  intros Hne Hdec Hctx. unfold stitchImages.
  destruct (decide (length us = 0)) as [Hlen|_]; [by destruct us|].
  rewrite (run_bind _ _ _ _ _ (loadAll_decoded env us w Hdec)).
  assert (imagesFrom env (next_url w) us ≠ []) as Himgs.
  { intros Heq. apply (f_equal length) in Heq.
    rewrite imagesFrom_length in Heq by done. by destruct us. }
  destruct (imagesFrom env (next_url w) us) as [|first imgs]; [done|].
  unfold render.
  by rewrite (run_bind_thrown _ _ _ _ _
                (run_bind_thrown _ _ _ _ _ (compose_no_context env _ _ Hctx))).
Qed.

(** ** The empty request *)

(** C9. A call with an empty list of images throws at once: the run ends in
    an error and the world is untouched, so no canvas was created, nothing
    was encoded and there is no result. *)
Theorem stitchImages_empty env w :
  stitchImages env [] w = (Thrown ErrNoImages, w)
  ∧ ∀ res w', stitchImages env [] w ≠ (Done res, w').
Proof.
  assert (stitchImages env [] w = (Thrown ErrNoImages, w)) as Hrun by reflexivity.
  split; [exact Hrun|]. intros res w' Hdone. rewrite Hrun in Hdone. discriminate.
Qed.

(** ** Decode failures *)

(** C6. When some image of the request fails to decode, the run ends in the
    load error; the only events it adds to the trace are the object URLs of
    the loading step, so no canvas was created or encoded, and there is no
    result. *)
Theorem stitchImages_decode_failure env us w :
  some_fails env us →
  ∃ w', stitchImages env us w = (Thrown ErrImageLoad, w')
        ∧ trace w' = trace w ++ (CreateObjectURL <$> seq (next_url w) (length us))
        ∧ (CreateCanvas ∉ CreateObjectURL <$> seq (next_url w) (length us))
        ∧ ∀ c, ToDataURL c ∉ CreateObjectURL <$> seq (next_url w) (length us).
Proof.
  intros Hfail. exists (created (length us) w). split; [|split; [done|]].
  - by apply stitchImages_load_aborts.
  - split; [|intros c]; intros Hin; apply list_elem_of_fmap in Hin;
      by destruct Hin as (u & Hu & _).
Qed.

Lemma stitchImages_decode_failure_witness :
  ∃ w', stitchImages (test_env true None) [upload "a" ""; upload "bad" ""]
          initial_world = (Thrown ErrImageLoad, w')
        ∧ trace w' = [CreateObjectURL 0; CreateObjectURL 1].
Proof.
  destruct (stitchImages_decode_failure (test_env true None)
              [upload "a" ""; upload "bad" ""] initial_world)
    as (w' & Hrun & Htrace & _).
  - apply Exists_cons_tl, Exists_cons_hd. reflexivity.
  - exists w'. split; [exact Hrun|exact Htrace].
Defined.

(** ** Layout *)

(** C1. The layout takes the natural width of the first image as target
    width, gives every image the scale factor [targetWidth / naturalWidth]
    and the scaled height [naturalHeight * scaleFactor], and adds the scaled
    heights up, unrounded, to the total height.  For images of 100x50 and
    200x50 the second scale factor is 1/2, its scaled height 25, and the run
    creates a canvas of 100 by 75 and reports 100 by 75. *)
Theorem layout_scales_to_first_width :
  (∀ first rest,
     let plan := computeLayout first (first :: rest) in
     targetWidth plan = of_N (naturalWidth first)
     ∧ imageDrawData plan
       = (λ i, let scaleFactor := div (targetWidth plan) (of_N (naturalWidth i)) in
               {| img := i;
                  scaledHeight := mul (of_N (naturalHeight i)) scaleFactor;
                  scaleFactor := scaleFactor |}) <$> (first :: rest)
     ∧ totalHeight plan = foldl add zero (scaledHeight <$> imageDrawData plan))
  ∧ (let a := image 0 100 50 in
     let b := image 1 200 50 in
     let plan := computeLayout a [a; b] in
     targetWidth plan = of_Z 100
     ∧ imageDrawData plan !! 1
       = Some {| img := b; scaledHeight := of_Z 25; scaleFactor := Fin (1 # 2) |}
     ∧ totalHeight plan = of_Z 75
     ∧ ∃ res w canvas,
         stitchImages (test_env true None) [upload "a" ""; upload "b" ""]
           initial_world = (Done res, w)
         ∧ StitchResult.width res = of_Z 100
         ∧ StitchResult.height res = of_Z 75
         ∧ ToDataURL canvas ∈ trace w
         ∧ canvas_width canvas = 100%N
         ∧ canvas_height canvas = 75%N).
Proof.
  split.
  - intros first rest plan. unfold plan. rewrite computeLayout_spec.
    cbn [targetWidth imageDrawData totalHeight]. done.
  - cbn zeta. split; [reflexivity|]. split; [reflexivity|]. split; [reflexivity|].
    eexists _, _, _. split; [vm_compute; reflexivity|].
    split; [reflexivity|]. split; [reflexivity|]. split.
    + cbn [trace]. do 3 apply list_elem_of_further. apply list_elem_of_here.
    + split; reflexivity.
Qed.

(** ** Step 6: the metadata transplant *)

Lemma emitted_nil w : emitted [] w = w.
Proof. destruct w. unfold emitted. simpl. by rewrite app_nil_r. Qed.

(** The step always returns a data URL; all it does to the world is to
    write at most one console message. *)
Lemma transplantExif_run env us stitchedDataUrl w :
  ∃ finalDataUrl es,
    transplantExif env us stitchedDataUrl w = (Done finalDataUrl, emitted es w)
    ∧ Forall is_console es.
Proof.
  assert (∀ lvl msg, Forall is_console [Console lvl msg]) as Hone.
  { intros lvl msg. apply Forall_singleton. by exists lvl, msg. }
  unfold transplantExif, try_catch, readFileAsDataURL, await, call, console, emit.
  unfold mbind, M_bind, mret, M_ret, mthrow, M_throw.
  destruct us as [|u0 rest]; [by eexists _, [_]|].
  destruct (fileDataURL env (file u0)) as [first|]; [|by eexists _, [_]].
  destruct (piexif env) as [px|]; [|by eexists _, [_]].
  destruct (load px first) as [exifObj|e]; [|by eexists _, [_]].
  destruct (typeof_object exifObj).
  - destruct (dump px exifObj) as [exifBytes|e]; [|by eexists _, [_]].
    destruct (insert px exifBytes stitchedDataUrl) as [out|e]; by eexists _, [_].
  - exists stitchedDataUrl, []. by rewrite emitted_nil.
Qed.

(** The run of the step when reading, parsing, serializing and injecting
    all succeed. *)
Lemma transplantExif_injects env u0 rest stitchedDataUrl w first px exifObj
    exifBytes out :
  fileDataURL env (file u0) = Some first → piexif env = Some px →
  load px first = Done exifObj → typeof_object exifObj = true →
  dump px exifObj = Done exifBytes →
  insert px exifBytes stitchedDataUrl = Done out →
  transplantExif env (u0 :: rest) stitchedDataUrl w
  = (Done out, emitted [Console Log MsgExifTransferred] w).
Proof.
  intros Hread Hpx Hload Hobj Hdump Hins.
  unfold transplantExif, try_catch, readFileAsDataURL, await, call, console, emit.
  unfold mbind, M_bind, mret, M_ret.
  by rewrite Hread, Hpx, Hload, Hobj, Hdump, Hins.
Qed.

(** The run of the step when the parser returns a value that is not an
    object. *)
Lemma transplantExif_not_object env u0 rest stitchedDataUrl w first px exifObj :
  fileDataURL env (file u0) = Some first → piexif env = Some px →
  load px first = Done exifObj → typeof_object exifObj = false →
  transplantExif env (u0 :: rest) stitchedDataUrl w = (Done stitchedDataUrl, w).
Proof.
  intros Hread Hpx Hload Hobj.
  unfold transplantExif, try_catch, readFileAsDataURL, await, call.
  unfold mbind, M_bind, mret, M_ret.
  by rewrite Hread, Hpx, Hload, Hobj.
Qed.

(** The run of the step on a failure: the data URL is the encoder's. *)
Lemma transplantExif_failed env us stitchedDataUrl w :
  metadata_failed env stitchedDataUrl us →
  ∃ lvl msg,
    transplantExif env us stitchedDataUrl w
    = (Done stitchedDataUrl, emitted [Console lvl msg] w).
Proof.
  unfold transplantExif, try_catch, readFileAsDataURL, await, call, console, emit.
  unfold mbind, M_bind, mret, M_ret, mthrow, M_throw.
  destruct 1 as [u0 rest Hread|u0 rest Hpx|u0 rest first px e Hread Hpx Hload
                |u0 rest first px exifObj e Hread Hpx Hload Hobj Hdump
                |u0 rest first px exifObj exifBytes e Hread Hpx Hload Hobj Hdump Hins].
  - rewrite Hread. by eexists _, _.
  - destruct (fileDataURL env (file u0)); rewrite ?Hpx; by eexists _, _.
  - rewrite Hread, Hpx, Hload. by eexists _, _.
  - rewrite Hread, Hpx, Hload, Hobj, Hdump. by eexists _, _.
  - rewrite Hread, Hpx, Hload, Hobj, Hdump, Hins. by eexists _, _.
Qed.

(** ** Successful runs *)

(** A run whose images decode, with a 2D context, whose transplant step
    returns [finalDataUrl] and whose final data URL can be fetched. *)
Lemma stitchImages_success env us w finalDataUrl es :
  us ≠ [] → all_decode env us → context2d env = true →
  let imgs := imagesFrom env (next_url w) us in
  let plan := planOf imgs in
  let canvas := paintedCanvas plan in
  let w1 := emitted [CreateCanvas; ToDataURL canvas] (created (length us) w) in
  transplantExif env us (stitchedOf env us w) w1 = (Done finalDataUrl, emitted es w1) →
  fetchable env finalDataUrl = true →
  stitchImages env us w
  = (Done {| StitchResult.blob := {| blob_data := finalDataUrl |};
             StitchResult.url := next_url w + length us;
             StitchResult.width := targetWidth plan;
             StitchResult.height := round (totalHeight plan) |},
     revoked (seq (next_url w) (length us)) (created 1 (emitted es w1))).
Proof.
  intros Hne Hdec Hctx imgs plan canvas w1 Htr Hfetch.
  rewrite stitchImages_prefix by done.
  fold imgs plan canvas w1. unfold stitchedOf in Htr. fold imgs plan canvas in Htr.
  rewrite (run_bind _ _ _ _ _ Htr).
  rewrite export_run by done. unfold imgs. rewrite imagesFrom_src by done.
  reflexivity.
Qed.

Lemma metadata_failed_cons env s us : metadata_failed env s us → us ≠ [].
Proof. by destruct 1. Qed.

(** C2. The metadata step never throws: it always returns a data URL.
    When reading the first file, parsing, serializing or injecting fails, or
    the codec is missing, that data URL is the encoder's output, unmodified;
    the run then goes on and returns the bytes of the encoded composite. *)
Theorem metadata_failure_is_recovered env us w :
  (∀ s, ∃ finalDataUrl w',
      transplantExif env us s w = (Done finalDataUrl, w')
      ∧ (metadata_failed env s us → finalDataUrl = s))
  ∧ (all_decode env us → context2d env = true →
     metadata_failed env (stitchedOf env us w) us →
     fetchable env (stitchedOf env us w) = true →
     ∃ res w',
       stitchImages env us w = (Done res, w')
       ∧ StitchResult.blob res = {| blob_data := stitchedOf env us w |}).
Proof.
  split.
  - intros s. destruct (transplantExif_run env us s w) as (final & es & Hrun & _).
    exists final, (emitted es w). split; [done|].
    intros Hfail. destruct (transplantExif_failed env us s w Hfail) as (lvl & msg & Hrun').
    congruence.
  - intros Hdec Hctx Hfail Hfetch.
    set (w1 := emitted [CreateCanvas;
                        ToDataURL (paintedCanvas (planOf (imagesFrom env (next_url w) us)))]
                 (created (length us) w)).
    destruct (transplantExif_failed env us _ w1 Hfail) as (lvl & msg & Hrun).
    eexists _, _. split.
    + apply (stitchImages_success env us w (stitchedOf env us w) [Console lvl msg]);
        eauto using metadata_failed_cons.
    + reflexivity.
Qed.

Lemma metadata_failure_is_recovered_witness :
  ∃ res w',
    stitchImages (test_env true (Some fake_piexif))
      [upload "a" "not a jpeg"; upload "b" ""] initial_world = (Done res, w')
    ∧ StitchResult.blob res = {| blob_data := "JPEG" |}.
Proof.
  apply (proj2 (metadata_failure_is_recovered (test_env true (Some fake_piexif))
                  [upload "a" "not a jpeg"; upload "b" ""] initial_world)).
  - repeat constructor; by eexists.
  - reflexivity.
  - eapply (load_failed _ _ _ _ "not a jpeg" fake_piexif); reflexivity.
  - reflexivity.
Defined.

(** ** Without the EXIF library *)

(** C10. When [window.piexif] is missing, a run whose images decode, with a
    2D context, a readable first file and a fetchable composite, succeeds:
    the bytes of its result are those of the encoded composite, and the only
    console message of the run is the warning that the library was not
    found. *)
Theorem stitchImages_without_piexif env us w :
  all_decode env us → context2d env = true → piexif env = None →
  (∃ u0 rest first, us = u0 :: rest ∧ fileDataURL env (file u0) = Some first) →
  fetchable env (stitchedOf env us w) = true →
  ∃ res w',
    stitchImages env us w = (Done res, w')
    ∧ StitchResult.blob res = {| blob_data := stitchedOf env us w |}
    ∧ trace w'
      = trace w
          ++ (CreateObjectURL <$> seq (next_url w) (length us))
          ++ [CreateCanvas;
              ToDataURL (paintedCanvas (planOf (imagesFrom env (next_url w) us)));
              Console Warn MsgNoPiexif;
              CreateObjectURL (next_url w + length us)]
          ++ (RevokeObjectURL <$> seq (next_url w) (length us)).
Proof.
  intros Hdec Hctx Hpx (u0 & rest & first & -> & Hread) Hfetch.
  eexists _, _. split; [|split].
  - apply (stitchImages_success env (u0 :: rest) w
             (stitchedOf env (u0 :: rest) w) [Console Warn MsgNoPiexif]);
      [done|done|done| |exact Hfetch].
    unfold transplantExif, try_catch, readFileAsDataURL, await, console, emit.
    unfold mbind, M_bind, mret, M_ret. by rewrite Hread, Hpx.
  - reflexivity.
  - cbn [trace revoked created emitted next_url seq fmap list_fmap].
    rewrite <- !app_assoc. reflexivity.
Qed.

Lemma stitchImages_without_piexif_witness :
  ∃ res w',
    stitchImages (test_env true None)
      [upload "a" "EXIF:Canon;pixels"; upload "b" ""] initial_world = (Done res, w')
    ∧ StitchResult.blob res = {| blob_data := "JPEG" |}
    ∧ trace w'
      = [CreateObjectURL 0; CreateObjectURL 1; CreateCanvas;
         ToDataURL (paintedCanvas (planOf [image 0 100 50; image 1 200 50]));
         Console Warn MsgNoPiexif; CreateObjectURL 2;
         RevokeObjectURL 0; RevokeObjectURL 1].
Proof.
  apply (stitchImages_without_piexif (test_env true None)
           [upload "a" "EXIF:Canon;pixels"; upload "b" ""] initial_world).
  - repeat constructor; by eexists.
  - reflexivity.
  - reflexivity.
  - by eexists _, _, _.
  - reflexivity.
Defined.

(** ** What the parser's value decides *)

Lemma no_tags_empty_exif : no_tags empty_exif.
Proof.
  intros ifd tags H. unfold empty_exif in H.
  repeat (apply lookup_insert_Some in H as [[_ <-]|[_ H]]; [done|]).
  by apply lookup_singleton_Some in H as [_ <-].
Qed.

(** C3, evaluated where the code departs from it.  The first file carries
    a metadata segment without tags and the parser returns a dictionary
    without tags for it.  The guard [typeof exifObj === 'object'] lets it
    through: the step serializes and injects it, and the bytes of the result
    are not the encoder's. *)
Theorem empty_dictionary_is_injected :
  let env := test_env true (Some fake_piexif) in
  let u0 := upload "a" "EXIF:none;pixels" in
  fileDataURL env (file u0) = Some "EXIF:none;pixels"
  ∧ load fake_piexif "EXIF:none;pixels" = Done (JObject empty_exif)
  ∧ no_tags empty_exif
  ∧ stitchedOf env [u0] initial_world = "JPEG"
  ∧ transplantExif env [u0] "JPEG" initial_world
    = (Done "EXIF:none;JPEG", emitted [Console Log MsgExifTransferred] initial_world)
  ∧ (∃ res w,
       stitchImages env [u0] initial_world = (Done res, w)
       ∧ blob_data (StitchResult.blob res) = "EXIF:none;JPEG")
  ∧ "EXIF:none;JPEG" ≠ "JPEG".
Proof.
  cbn zeta. split; [reflexivity|]. split; [reflexivity|].
  split; [exact no_tags_empty_exif|]. split; [reflexivity|]. split; [reflexivity|].
  split; [|discriminate].
  eexists _, _. split.
  - apply (stitchImages_success (test_env true (Some fake_piexif))
             [upload "a" "EXIF:none;pixels"] initial_world "EXIF:none;JPEG"
             [Console Log MsgExifTransferred]); try reflexivity.
    + done.
    + repeat constructor; by eexists.
  - reflexivity.
Qed.

(** How the guard of the step decides: a value that is not an object (the
    sentinel string, for one) leaves the encoder's data URL as it is and
    writes nothing; an object is serialized and injected. *)
Lemma transplant_guard_is_typeof env u0 rest s w px first exifObj :
  fileDataURL env (file u0) = Some first → piexif env = Some px →
  load px first = Done exifObj →
  (typeof_object exifObj = false →
   transplantExif env (u0 :: rest) s w = (Done s, w))
  ∧ (typeof_object exifObj = true →
     ∀ exifBytes out,
       dump px exifObj = Done exifBytes → insert px exifBytes s = Done out →
       transplantExif env (u0 :: rest) s w
       = (Done out, emitted [Console Log MsgExifTransferred] w)).
Proof.
  intros Hread Hpx Hload. split.
  - intros Hobj. by eapply transplantExif_not_object.
  - intros Hobj exifBytes out Hdump Hins. by eapply transplantExif_injects.
Qed.

(** ** Metadata of the first image *)







(** ** The height of the canvas and the reported height *)

(** C4, evaluated where the code departs from it.  For images of 100x50 and
    200x51 the total height is 75.5; [canvas.height = totalHeight] leaves a
    canvas 75 pixels high, and the result reports [Math.round(75.5)], 76. *)
Theorem reported_height_exceeds_canvas :
  let us := [upload "a" ""; upload "c" ""] in
  let plan := planOf [image 0 100 50; image 1 200 51] in
  totalHeight plan = Fin (151 # 2)
  ∧ canvas_height (paintedCanvas plan) = 75%N
  ∧ ∃ res w,
      stitchImages (test_env true None) us initial_world = (Done res, w)
      ∧ ToDataURL (paintedCanvas plan) ∈ trace w
      ∧ StitchResult.height res = of_Z 76.
Proof.
  cbn zeta. split; [reflexivity|]. split; [reflexivity|].
  eexists _, _. split; [|split].
  - apply (stitchImages_success (test_env true None) [upload "a" ""; upload "c" ""]
             initial_world "JPEG" [Console Warn MsgNoPiexif]); try reflexivity.
    + done.
    + repeat constructor; by eexists.
  - cbn [trace revoked created emitted]. set_solver.
  - reflexivity.
Qed.

(** ** Object URLs *)

(** On a successful run every object URL of the loaded images is revoked:
    the only URL the run leaves behind is the one of the result. *)
Lemma stitchImages_success_releases env us w res w' :
  fresh_urls w → all_decode env us → context2d env = true →
  stitchImages env us w = (Done res, w') →
  live_urls w' = {[StitchResult.url res]} ∪ live_urls w
  ∧ StitchResult.url res = next_url w + length us.
Proof.
  intros Hfresh Hdec Hctx Hrun.
  assert (us ≠ []) as Hne by (intros ->; discriminate Hrun).
  set (w1 := emitted [CreateCanvas;
                      ToDataURL (paintedCanvas (planOf (imagesFrom env (next_url w) us)))]
               (created (length us) w)).
  destruct (transplantExif_run env us (stitchedOf env us w) w1)
    as (final & es & Htr & _).
  destruct (fetchable env final) eqn:Hfetch.
  - rewrite (stitchImages_success env us w final es) in Hrun by done.
    injection Hrun as <- <-. split; [|done].
    generalize (length us). intros n.
    cbn [StitchResult.url live_urls revoked created emitted next_url].
    apply set_eq. intros u.
    rewrite elem_of_difference, !elem_of_union, !elem_of_list_to_set, !elem_of_seq.
    rewrite elem_of_singleton. specialize (Hfresh u). split.
    + intros [[?|[?|?]] ?]; [left; lia|lia|by right].
    + intros [->|Hu]; [split; [left; lia|lia]|].
      split; [by right; right|]. specialize (Hfresh Hu). lia.
  - rewrite stitchImages_prefix in Hrun by done.
    fold w1 in Hrun. unfold stitchedOf in Htr.
    rewrite (run_bind _ _ _ _ _ Htr) in Hrun.
    by rewrite export_unfetchable in Hrun.
Qed.

(** C5, evaluated where the code departs from it.  When the second of two
    images fails to decode, or when no 2D context is available, the run
    throws before the cleanup and the object URLs of both images stay
    live. *)
Theorem object_urls_leak_on_abort :
  (∃ w, stitchImages (test_env true None) [upload "a" ""; upload "bad" ""]
          initial_world = (Thrown ErrImageLoad, w)
        ∧ 0 ∈ live_urls w ∧ 1 ∈ live_urls w)
  ∧ (∃ w, stitchImages (test_env false None) [upload "a" ""; upload "b" ""]
            initial_world = (Thrown ErrNoContext, w)
          ∧ 0 ∈ live_urls w ∧ 1 ∈ live_urls w).
Proof.
  split.
  - exists (created 2 initial_world). split; [|split].
    + apply (stitchImages_load_aborts (test_env true None)
               [upload "a" ""; upload "bad" ""]).
      apply Exists_cons_tl, Exists_cons_hd. reflexivity.
    + cbn. set_solver.
    + cbn. set_solver.
  - exists (emitted [CreateCanvas] (created 2 initial_world)). split; [|split].
    + apply (stitchImages_no_context (test_env false None)
               [upload "a" ""; upload "b" ""]); [done| |done].
      repeat constructor; by eexists.
    + cbn. set_solver.
    + cbn. set_solver.
Qed.

(** ** Arithmetic of positive numbers *)

Section PositiveNumbers.

Local Open Scope Q_scope.

Lemma of_N_positive n : (0 < n)%N → positive (of_N n).
Proof.
  intros Hn. exists (inject_Z (Z.of_N n)). split; [done|].
  unfold Qlt. simpl. lia.
Qed.

Lemma positive_nonneg a : positive a → nonneg a.
Proof. intros (q & -> & Hq). exists q. split; [done|]. by apply Qlt_le_weak. Qed.

Lemma nonneg_zero : nonneg zero.
Proof. exists 0. split; [done|]. apply Qle_refl. Qed.

Lemma div_positive a b : positive a → positive b → positive (div a b).
Proof.
  intros (x & -> & Hx) (y & -> & Hy). unfold div.
  destruct (Qeq_bool y 0) eqn:Hy0.
  - apply Qeq_bool_iff in Hy0. rewrite Hy0 in Hy. by apply Qlt_irrefl in Hy.
  - exists (Qred (x / y)). split; [done|]. rewrite Qred_correct.
    apply Qmult_lt_0_compat; [done|]. by apply Qinv_lt_0_compat.
Qed.

Lemma mul_positive a b : positive a → positive b → positive (mul a b).
Proof.
  intros (x & -> & Hx) (y & -> & Hy). exists (Qred (x * y)). split; [done|].
  rewrite Qred_correct. by apply Qmult_lt_0_compat.
Qed.

Lemma add_nonneg_positive a b :
  nonneg a → positive b → positive (add a b) ∧ ltb a (add a b) = true.
Proof.
  intros (x & -> & Hx) (y & -> & Hy). split.
  - exists (Qred (x + y)). split; [done|]. rewrite Qred_correct.
    apply Qlt_le_trans with (0 + y); [by rewrite Qplus_0_l|].
    by apply Qplus_le_l.
  - cbn [add ltb]. apply negb_true_iff. apply not_true_iff_false.
    rewrite Qle_bool_iff, Qred_correct. apply Qlt_not_le.
    rewrite <- (Qplus_0_r x) at 1. by apply Qplus_lt_r.
Qed.

End PositiveNumbers.

(** ** Vertical offsets *)

Lemma yOffset_S ds i d :
  ds !! i = Some d → yOffset ds (S i) = add (yOffset ds i) (scaledHeight d).
Proof.
  intros Hd. unfold yOffset. rewrite (take_S_r _ _ _ Hd), fmap_app, foldl_app.
  reflexivity.
Qed.

Lemma yOffset_nonneg ds i :
  Forall (λ d, positive (scaledHeight d)) ds → nonneg (yOffset ds i).
Proof.
  intros Hpos. induction i as [|i IH]; [apply nonneg_zero|].
  destruct (ds !! i) as [d|] eqn:Hd.
  - rewrite (yOffset_S _ _ _ Hd). apply positive_nonneg.
    apply add_nonneg_positive; [done|].
    by apply (Forall_lookup_1 _ _ _ _ Hpos Hd).
  - apply lookup_ge_None in Hd. unfold yOffset in *.
    rewrite take_ge by lia. by rewrite take_ge in IH by lia.
Qed.

Section FlatImages.

Local Open Scope Q_scope.

Lemma Qred_idem q : Qred (Qred q) = Qred q.
Proof. apply Qred_complete, Qred_correct. Qed.

Lemma add_canonical a b : canonical (add a b).
Proof. destruct a, b; cbn; try done; apply Qred_idem. Qed.

Lemma add_zero_r a : canonical a → add a zero = a.
Proof.
  destruct a as [q| | |]; cbn; try done. intros Hq. f_equal.
  rewrite <- Hq at 2. apply Qred_complete. apply Qplus_0_r.
Qed.

Lemma yOffset_canonical ds i : canonical (yOffset ds i).
Proof.
  unfold yOffset. generalize (scaledHeight <$> take i ds). intros l.
  assert (canonical zero) as Hz by reflexivity. revert Hz.
  generalize zero. induction l as [|x l IH]; intros acc Hacc; [done|].
  cbn [foldl]. apply IH, add_canonical.
Qed.

Lemma drawDataOf_flat W i :
  naturalHeight i = 0%N → (0 < naturalWidth i)%N →
  scaledHeight (drawDataOf (of_N W) i) = zero.
Proof.
  intros Hh Hw. unfold drawDataOf, div, mul, of_N, of_Z. cbn [scaledHeight].
  rewrite Hh.
  destruct (Qeq_bool (inject_Z (Z.of_N (naturalWidth i))) 0) eqn:Hz.
  { apply Qeq_bool_iff in Hz. unfold Qeq in Hz. simpl in Hz. lia. }
  reflexivity.
Qed.

End FlatImages.

(** After an image of natural height 0 and positive natural width the
    offset is the one it had. *)
Lemma yOffset_after_flat imgs k i :
  imgs !! k = Some i → naturalHeight i = 0%N → (0 < naturalWidth i)%N →
  yOffset (imageDrawData (planOf imgs)) (S k)
  = yOffset (imageDrawData (planOf imgs)) k.
Proof.
  intros Hk Hh Hw. destruct imgs as [|first rest]; [done|].
  cbn [planOf]. rewrite computeLayout_spec. cbn [imageDrawData].
  rewrite (yOffset_S _ k (drawDataOf (of_N (naturalWidth first)) i)).
  - rewrite drawDataOf_flat by done. apply add_zero_r, yOffset_canonical.
  - by rewrite list_lookup_fmap, Hk.
Qed.

Lemma drawDataOf_positive tw i :
  positive tw → positive_size i → positive (scaledHeight (drawDataOf tw i)).
Proof.
  intros Htw [Hw Hh]. cbn [drawDataOf scaledHeight].
  apply mul_positive; [by apply of_N_positive|].
  apply div_positive; [done|by apply of_N_positive].
Qed.

Lemma planOf_img imgs : img <$> imageDrawData (planOf imgs) = imgs.
Proof.
  destruct imgs as [|first rest]; [done|].
  cbn [planOf]. rewrite computeLayout_spec. cbn [imageDrawData].
  rewrite <- list_fmap_compose. apply list_fmap_id.
Qed.

Lemma planOf_positive imgs :
  Forall positive_size imgs →
  Forall (λ d, positive (scaledHeight d)) (imageDrawData (planOf imgs)).
Proof.
  intros Hpos. destruct imgs as [|first rest]; [done|].
  cbn [planOf]. rewrite computeLayout_spec. cbn [imageDrawData].
  apply Forall_fmap. eapply Forall_impl; [exact Hpos|].
  intros i Hi. apply drawDataOf_positive; [|done].
  apply of_N_positive. by apply Forall_cons_1 in Hpos as [[? _] _].
Qed.

(** Whatever the later steps do, the canvas that was encoded stays in the
    trace of the run. *)
Lemma stitchImages_encodes env us w :
  us ≠ [] → all_decode env us → context2d env = true →
  ∃ o w',
    stitchImages env us w = (o, w')
    ∧ ToDataURL (paintedCanvas (planOf (imagesFrom env (next_url w) us))) ∈ trace w'.
Proof.
  intros Hne Hdec Hctx. rewrite stitchImages_prefix by done.
  set (canvas := paintedCanvas _).
  set (w1 := emitted [CreateCanvas; ToDataURL canvas] (created (length us) w)).
  destruct (transplantExif_run env us (encodeJpeg env canvas) w1)
    as (final & es & Htr & _).
  rewrite (run_bind _ _ _ _ _ Htr).
  destruct (fetchable env final) eqn:Hfetch.
  - rewrite export_run by done. eexists _, _. split; [done|].
    cbn [trace revoked created emitted]. set_solver.
  - rewrite export_unfetchable by done. eexists _, _. split; [done|].
    cbn [trace revoked created emitted]. set_solver.
Qed.

(** C8, refuted as stated.  The second of three images has natural height
    0: its scaled height is 0, so the third image is drawn at the offset of
    the second, 50. *)
Lemma zero_height_image_repeats_offset :
  let us := [upload "a" ""; upload "flat" ""; upload "b" ""] in
  let a := image 0 100 50 in
  let flat := image 1 100 0 in
  let b := image 2 200 50 in
  let ds := imageDrawData (planOf [a; flat; b]) in
  yOffset ds 1 = of_Z 50
  ∧ yOffset ds 2 = of_Z 50
  ∧ ltb (yOffset ds 1) (yOffset ds 2) = false
  ∧ ∃ res w canvas,
      stitchImages (test_env true None) us initial_world = (Done res, w)
      ∧ ToDataURL canvas ∈ trace w
      ∧ canvas_ops canvas
        = [FillRect "#FFFFFF" zero zero (of_Z 100) (of_Z 75);
           DrawImage a zero zero (of_Z 100) (of_Z 50);
           DrawImage flat zero (of_Z 50) (of_Z 100) zero;
           DrawImage b zero (of_Z 50) (of_Z 100) (of_Z 25)].
Proof.
  cbn zeta. split; [reflexivity|]. split; [reflexivity|]. split; [reflexivity|].
  eexists _, _, (paintedCanvas (planOf [image 0 100 50; image 1 100 0; image 2 200 50])).
  split; [|split].
  - apply (stitchImages_success (test_env true None)
             [upload "a" ""; upload "flat" ""; upload "b" ""]
             initial_world "JPEG" [Console Warn MsgNoPiexif]); try reflexivity.
    + done.
    + repeat constructor; by eexists.
  - cbn [trace revoked created emitted]. set_solver.
  - reflexivity.
Qed.

(** C8, amended.  In a run whose images decode, with a 2D context, the
    canvas that is encoded holds the white background and then one drawing per
    image, in input order, the [i]-th at the vertical offset [yOffset ds i];
    the entries are the images in input order; the first offset is 0 and each
    next one adds the scaled height of the entry before it.  The offsets do
    not always grow: the image after one of natural height 0 and positive
    natural width is drawn at the offset of that one. *)
Theorem draws_in_input_order env us w :
  us ≠ [] → all_decode env us → context2d env = true →
  let imgs := imagesFrom env (next_url w) us in
  let plan := planOf imgs in
  let ds := imageDrawData plan in
  (∃ o w' canvas,
     stitchImages env us w = (o, w')
     ∧ ToDataURL canvas ∈ trace w'
     ∧ canvas_ops canvas
       = FillRect "#FFFFFF" zero zero
           (of_N (canvas_width canvas)) (of_N (canvas_height canvas))
           :: imap (λ i d, DrawImage (img d) zero (yOffset ds i)
                             (targetWidth plan) (scaledHeight d)) ds)
  ∧ img <$> ds = imgs
  ∧ yOffset ds 0 = zero
  ∧ (∀ i d, ds !! i = Some d →
            yOffset ds (S i) = add (yOffset ds i) (scaledHeight d))
  ∧ (∀ k i, imgs !! k = Some i →
            naturalHeight i = 0%N → (0 < naturalWidth i)%N →
            yOffset ds (S k) = yOffset ds k).
Proof.
  intros Hne Hdec Hctx imgs plan ds. split; [|split; [|split; [|split]]].
  - destruct (stitchImages_encodes env us w Hne Hdec Hctx) as (o & w' & Hrun & Hin).
    by exists o, w', (paintedCanvas plan).
  - apply planOf_img.
  - reflexivity.
  - intros i d. apply yOffset_S.
  - intros k i. apply yOffset_after_flat.
Qed.

Lemma draws_in_input_order_witness :
  let a := image 0 100 50 in
  let flat := image 1 100 0 in
  let b := image 2 200 50 in
  let ds := imageDrawData (planOf [a; flat; b]) in
  img <$> ds = [a; flat; b]
  ∧ yOffset ds 2 = yOffset ds 1
  ∧ ∃ o w' canvas,
      stitchImages (test_env true None)
        [upload "a" ""; upload "flat" ""; upload "b" ""] initial_world = (o, w')
      ∧ ToDataURL canvas ∈ trace w'
      ∧ canvas_ops canvas
        = FillRect "#FFFFFF" zero zero
            (of_N (canvas_width canvas)) (of_N (canvas_height canvas))
            :: imap (λ i d, DrawImage (img d) zero (yOffset ds i)
                              (targetWidth (planOf [a; flat; b])) (scaledHeight d))
                 ds.
Proof.
  destruct (draws_in_input_order (test_env true None)
              [upload "a" ""; upload "flat" ""; upload "b" ""] initial_world)
    as (Hrun & Himg & _ & _ & Hflat).
  - done.
  - repeat constructor; by eexists.
  - reflexivity.
  - split; [exact Himg|]. split; [|exact Hrun].
    apply (Hflat 1 (image 1 100 0)); [reflexivity|reflexivity|done].
Defined.

(** ** Beyond the cited lines: more of [stitchImages] *)

Lemma decode_cases env us : all_decode env us ∨ some_fails env us.
Proof.
  induction us as [|u us [IH|IH]].
  - left. constructor.
  - destruct (decode env (file u)) as [dims|] eqn:Hu.
    + left. constructor; [by exists dims|done].
    + right. by apply Exists_cons_hd.
  - right. by apply Exists_cons_tl.
Qed.

(** What a run that returned a result went through. *)
Lemma stitchImages_done_inv env us w res w' :
  stitchImages env us w = (Done res, w') →
  let plan := planOf (imagesFrom env (next_url w) us) in
  us ≠ [] ∧ all_decode env us ∧ context2d env = true
  ∧ StitchResult.width res = targetWidth plan
  ∧ StitchResult.height res = round (totalHeight plan)
  ∧ StitchResult.url res = next_url w + length us
  ∧ fetchable env (blob_data (StitchResult.blob res)) = true.
Proof.
  intros Hrun plan.
  assert (us ≠ []) as Hne by (intros ->; discriminate Hrun).
  destruct (decode_cases env us) as [Hdec|Hfail];
    [|by rewrite stitchImages_load_aborts in Hrun].
  destruct (context2d env) eqn:Hctx;
    [|by rewrite stitchImages_no_context in Hrun].
  set (w1 := emitted [CreateCanvas;
                      ToDataURL (paintedCanvas (planOf (imagesFrom env (next_url w) us)))]
               (created (length us) w)).
  destruct (transplantExif_run env us (stitchedOf env us w) w1)
    as (final & es & Htr & _).
  destruct (fetchable env final) eqn:Hfetch.
  - rewrite (stitchImages_success env us w final es) in Hrun by done.
    injection Hrun as <- <-. done.
  - rewrite stitchImages_prefix in Hrun by done.
    fold w1 in Hrun. unfold stitchedOf in Htr.
    rewrite (run_bind _ _ _ _ _ Htr) in Hrun.
    by rewrite export_unfetchable in Hrun.
Qed.

(** A run that returned a result encoded the painted canvas. *)
Lemma stitchImages_done_encoded env us w res w' :
  stitchImages env us w = (Done res, w') →
  ToDataURL (paintedCanvas (planOf (imagesFrom env (next_url w) us))) ∈ trace w'.
Proof.
  intros Hrun.
  destruct (stitchImages_done_inv env us w res w' Hrun) as (Hne & Hdec & Hctx & _).
  destruct (stitchImages_encodes env us w Hne Hdec Hctx) as (o & w2 & Hrun' & Hin).
  rewrite Hrun in Hrun'. by injection Hrun' as _ <-.
Qed.

Section IntegerNumbers.

Local Open Scope Q_scope.

Lemma Qred_inject_Z z : Qred (inject_Z z) = inject_Z z.
Proof.
  unfold Qred, inject_Z.
  generalize (Z.ggcd_gcd z 1) (Z.ggcd_correct_divisors z 1).
  destruct (Z.ggcd z 1) as [g [aa bb]]. cbn [fst snd Qnum Qden].
  rewrite Z.gcd_1_r. intros -> [Haa Hbb].
  assert (aa = z) as -> by lia. assert (bb = 1%Z) as -> by lia. reflexivity.
Qed.

Lemma add_of_Z a b : add (of_Z a) (of_Z b) = of_Z (a + b).
Proof.
  unfold add, of_Z. f_equal.
  rewrite (Qred_complete _ (inject_Z (a + b))); [apply Qred_inject_Z|].
  rewrite inject_Z_plus. apply Qeq_refl.
Qed.

Lemma div_self n : (0 < n)%N → div (of_N n) (of_N n) = Fin 1.
Proof.
  intros Hn. unfold div, of_N, of_Z.
  assert (¬ inject_Z (Z.of_N n) == 0) as Hnz.
  { unfold Qeq. simpl. lia. }
  destruct (Qeq_bool (inject_Z (Z.of_N n)) 0) eqn:Hz.
  { by apply Qeq_bool_iff in Hz. }
  f_equal. rewrite (Qred_complete _ 1); [reflexivity|].
  by apply Qmult_inv_r.
Qed.

Lemma mul_one_r z : mul (of_Z z) (Fin 1) = of_Z z.
Proof.
  unfold mul, of_Z. f_equal.
  rewrite (Qred_complete _ (inject_Z z)); [apply Qred_inject_Z|].
  apply Qmult_1_r.
Qed.

End IntegerNumbers.

Section SameWidth.

Local Open Scope Q_scope.

Lemma round_of_Z z : round (of_Z z) = of_Z z.
Proof.
  unfold round, of_Z. f_equal. f_equal.
  unfold Qfloor, Qplus, inject_Z. cbn [Qnum Qden].
  change (Z.pos (1 * 2)) with 2%Z.
  replace (z * 2 + 1 * 1)%Z with (z * 2 + 1)%Z by lia.
  rewrite Z.div_add_l by lia. apply Z.add_0_r.
Qed.

Lemma canvas_dimension_of_N default n :
  (n <= 2147483647)%N → canvas_dimension default (of_N n) = n.
Proof.
  intros Hn. unfold canvas_dimension, to_unsigned_long, of_N, of_Z, trunc, inject_Z.
  cbn [Qnum Qden]. rewrite Z.quot_1_r, Z.mod_small by lia. rewrite N2Z.id.
  by apply N.leb_le in Hn as ->.
Qed.

Lemma foldl_add_heights acc imgs :
  foldl add (of_Z acc) ((λ i, of_N (naturalHeight i)) <$> imgs)
  = of_Z (acc + Z.of_N (heightSum imgs)).
Proof.
  revert acc. induction imgs as [|i imgs IH]; intros acc.
  - cbn. by rewrite Z.add_0_r.
  - cbn [fmap list_fmap foldl heightSum foldr]. unfold of_N at 1.
    rewrite add_of_Z, IH. f_equal. unfold heightSum. lia.
Qed.

Lemma drawDataOf_same_width W i :
  (0 < W)%N → naturalWidth i = W →
  drawDataOf (of_N W) i
  = {| img := i; scaledHeight := of_N (naturalHeight i); scaleFactor := Fin 1 |}.
Proof.
  intros HW Hi. unfold drawDataOf. rewrite Hi, div_self by done.
  f_equal. apply mul_one_r.
Qed.

End SameWidth.

(** The layout of images that all have the width of the first. *)
Lemma same_width_layout first rest :
  (0 < naturalWidth first)%N →
  Forall (λ i, naturalWidth i = naturalWidth first) rest →
  (heightSum (first :: rest) <= 2147483647)%N →
  let plan := computeLayout first (first :: rest) in
  imageDrawData plan
  = (λ i, {| img := i; scaledHeight := of_N (naturalHeight i); scaleFactor := Fin 1 |})
      <$> (first :: rest)
  ∧ totalHeight plan = of_N (heightSum (first :: rest)).
Proof.
  intros HW Hsame _ plan.
  assert (imageDrawData plan
          = (λ i, {| img := i; scaledHeight := of_N (naturalHeight i);
                     scaleFactor := Fin 1 |}) <$> (first :: rest)) as Hds.
  { unfold plan. rewrite computeLayout_spec. cbn [imageDrawData].
    apply Forall_fmap_ext_1. (* every image has the target width *)
    apply Forall_cons. split; [by apply drawDataOf_same_width|].
    eapply Forall_impl; [exact Hsame|]. intros i Hi.
    by apply drawDataOf_same_width. }
  split; [done|].
  unfold plan in *. rewrite computeLayout_spec in *.
  cbn [imageDrawData totalHeight] in *. rewrite Hds, <- list_fmap_compose.
  apply (foldl_add_heights 0).
Qed.

(** X1. Take a run that returns a result for images that all have the same
    positive natural width [W], with [W] and the sum of the natural heights
    both at most 2^31 - 1.  Nothing is scaled: every scale factor is 1 and
    every scaled height is the natural height.  The canvas that is encoded is
    [W] wide and as tall as the natural heights together, and the result
    reports that width and that height. *)
Theorem same_width_heights_add_up env us w res w' W :
  stitchImages env us w = (Done res, w') →
  let imgs := imagesFrom env (next_url w) us in
  (0 < W)%N → (W <= 2147483647)%N →
  Forall (λ i, naturalWidth i = W) imgs →
  (heightSum imgs <= 2147483647)%N →
  imageDrawData (planOf imgs)
  = (λ i, {| img := i; scaledHeight := of_N (naturalHeight i); scaleFactor := Fin 1 |})
      <$> imgs
  ∧ StitchResult.width res = of_N W
  ∧ StitchResult.height res = of_N (heightSum imgs)
  ∧ ∃ canvas, ToDataURL canvas ∈ trace w'
              ∧ canvas_width canvas = W
              ∧ canvas_height canvas = heightSum imgs.
Proof.
  intros Hrun imgs HW HWsmall Hsame Hsum.
  destruct (stitchImages_done_inv env us w res w' Hrun)
    as (Hne & Hdec & _ & Hw & Hh & _).
  pose proof (stitchImages_done_encoded env us w res w' Hrun) as Henc.
  cbn zeta in Hw, Hh. fold imgs in Hw, Hh, Henc.
  destruct imgs as [|first rest] eqn:Himgs.
  { apply (f_equal length) in Himgs. unfold imgs in Himgs.
    rewrite imagesFrom_length in Himgs by done. by destruct us. }
  apply Forall_cons in Hsame as [Hfirst Hrest].
  destruct (same_width_layout first rest) as (Hds & Htotal);
    [by rewrite Hfirst|by rewrite Hfirst|done|].
  assert (targetWidth (planOf (first :: rest)) = of_N W) as Htw.
  { cbn [planOf]. rewrite computeLayout_spec. cbn [targetWidth]. by rewrite Hfirst. }
  cbn [planOf] in *.
  split; [exact Hds|]. split; [by rewrite Hw|]. split.
  - rewrite Hh, Htotal. apply round_of_Z.
  - eexists. split; [exact Henc|].
    cbn [paintedCanvas canvas_width canvas_height]. rewrite Htw, Htotal.
    by rewrite !canvas_dimension_of_N.
Qed.

Lemma same_width_heights_add_up_witness :
  ∃ res w',
    stitchImages (test_env true None) [upload "a" ""; upload "a" ""] initial_world
    = (Done res, w')
    ∧ StitchResult.width res = of_Z 100
    ∧ StitchResult.height res = of_Z 100
    ∧ ∃ canvas, ToDataURL canvas ∈ trace w'
                ∧ canvas_width canvas = 100%N
                ∧ canvas_height canvas = 100%N.
Proof.
  assert (stitchImages (test_env true None) [upload "a" ""; upload "a" ""]
            initial_world
          = (Done {| StitchResult.blob := {| blob_data := "JPEG" |};
                     StitchResult.url := 2;
                     StitchResult.width := of_Z 100;
                     StitchResult.height := of_Z 100 |},
             revoked [0; 1]
               (created 1
                  (emitted [Console Warn MsgNoPiexif]
                     (emitted [CreateCanvas;
                               ToDataURL (paintedCanvas
                                            (planOf [image 0 100 50; image 1 100 50]))]
                        (created 2 initial_world)))))) as Hrun.
  { apply (stitchImages_success (test_env true None) [upload "a" ""; upload "a" ""]
             initial_world "JPEG" [Console Warn MsgNoPiexif]); try reflexivity.
    - done.
    - repeat constructor; by eexists. }
  eexists _, _. split; [exact Hrun|].
  destruct (same_width_heights_add_up _ _ _ _ _ 100%N Hrun) as (_ & Hw & Hh & Hc).
  - reflexivity.
  - by vm_compute.
  - by repeat constructor.
  - by vm_compute.
  - split; [exact Hw|]. split; [exact Hh|exact Hc].
Defined.

(** X3. A result is returned only by a run in which every image decoded,
    a 2D context was available and the final data URL could be fetched; it
    reports the first image's natural width and the rounded total height of
    the layout, and its object URL is the first one after those of the
    images. *)
Theorem result_only_from_complete_run env us w res w' :
  stitchImages env us w = (Done res, w') →
  let imgs := imagesFrom env (next_url w) us in
  us ≠ [] ∧ all_decode env us ∧ context2d env = true
  ∧ fetchable env (blob_data (StitchResult.blob res)) = true
  ∧ (∃ first rest, imgs = first :: rest
                   ∧ StitchResult.width res = of_N (naturalWidth first))
  ∧ StitchResult.height res = round (totalHeight (planOf imgs))
  ∧ StitchResult.url res = next_url w + length us.
Proof.
  intros Hrun imgs.
  destruct (stitchImages_done_inv env us w res w' Hrun)
    as (Hne & Hdec & Hctx & Hw & Hh & Hu & Hfetch).
  repeat (split; [done|]). split; [|done].
  fold imgs in Hw. destruct imgs as [|first rest] eqn:Himgs.
  - apply (f_equal length) in Himgs. unfold imgs in Himgs.
    rewrite imagesFrom_length in Himgs by done. by destruct us.
  - exists first, rest. split; [done|]. rewrite Hw. cbn [planOf].
    by rewrite computeLayout_spec.
Qed.

Lemma result_only_from_complete_run_witness :
  all_decode (test_env true None) [upload "a" ""; upload "c" ""]
  ∧ StitchResult.height
      {| StitchResult.blob := {| blob_data := "JPEG" |}; StitchResult.url := 2;
         StitchResult.width := of_Z 100; StitchResult.height := of_Z 76 |}
    = round (totalHeight (planOf [image 0 100 50; image 1 200 51])).
Proof.
  destruct (result_only_from_complete_run (test_env true None)
              [upload "a" ""; upload "c" ""] initial_world
              {| StitchResult.blob := {| blob_data := "JPEG" |}; StitchResult.url := 2;
                 StitchResult.width := of_Z 100; StitchResult.height := of_Z 76 |}
              (revoked [0; 1]
                 (created 1
                    (emitted [Console Warn MsgNoPiexif]
                       (emitted [CreateCanvas;
                                 ToDataURL (paintedCanvas
                                              (planOf [image 0 100 50; image 1 200 51]))]
                          (created 2 initial_world))))))
    as (_ & Hdec & _ & _ & _ & Hheight & _).
  - apply (stitchImages_success (test_env true None) [upload "a" ""; upload "c" ""]
             initial_world "JPEG" [Console Warn MsgNoPiexif]); try reflexivity.
    + done.
    + repeat constructor; by eexists.
  - split; [exact Hdec|exact Hheight].
Defined.

Lemma stitchImages_success_releases_witness :
  ∃ res w',
    stitchImages (test_env true (Some fake_piexif))
      [upload "a" "EXIF:Canon;pixels"; upload "b" ""] initial_world = (Done res, w')
    ∧ live_urls w' = {[StitchResult.url res]} ∪ live_urls initial_world
    ∧ StitchResult.url res = 2.
Proof.
  eexists _, _. split.
  - apply (stitchImages_success (test_env true (Some fake_piexif))
             [upload "a" "EXIF:Canon;pixels"; upload "b" ""]
             initial_world "EXIF:Canon;JPEG" [Console Log MsgExifTransferred]);
      try reflexivity.
    + done.
    + repeat constructor; by eexists.
  - eapply (stitchImages_success_releases (test_env true (Some fake_piexif))
              [upload "a" "EXIF:Canon;pixels"; upload "b" ""] initial_world).
    + intros u Hu. cbn in Hu. set_solver.
    + repeat constructor; by eexists.
    + reflexivity.
    + apply (stitchImages_success (test_env true (Some fake_piexif))
               [upload "a" "EXIF:Canon;pixels"; upload "b" ""]
               initial_world "EXIF:Canon;JPEG" [Console Log MsgExifTransferred]);
        try reflexivity.
      * done.
      * repeat constructor; by eexists.
Defined.

(** X5. Without a 2D context the run throws right after creating the
    canvas: nothing is drawn or encoded, nothing is written to the console,
    and the only other events are the object URLs of the loading step. *)
Theorem no_context_is_fatal env us w :
  us ≠ [] → all_decode env us → context2d env = false →
  ∃ w', stitchImages env us w = (Thrown ErrNoContext, w')
        ∧ trace w'
          = trace w ++ (CreateObjectURL <$> seq (next_url w) (length us))
              ++ [CreateCanvas].
Proof.
  intros Hne Hdec Hctx. eexists. split; [by apply stitchImages_no_context|].
  cbn [trace emitted created]. by rewrite <- app_assoc.
Qed.

Lemma no_context_is_fatal_witness :
  ∃ w', stitchImages (test_env false None) [upload "a" ""; upload "b" ""]
          initial_world = (Thrown ErrNoContext, w')
        ∧ trace w' = [CreateObjectURL 0; CreateObjectURL 1; CreateCanvas].
Proof.
  apply (no_context_is_fatal (test_env false None) [upload "a" ""; upload "b" ""]
           initial_world).
  - done.
  - repeat constructor; by eexists.
  - reflexivity.
Defined.

Lemma stitchImages_fetch_aborts env us w finalDataUrl w2 :
  us ≠ [] → all_decode env us → context2d env = true →
  let canvas := paintedCanvas (planOf (imagesFrom env (next_url w) us)) in
  transplantExif env us (stitchedOf env us w)
    (emitted [CreateCanvas; ToDataURL canvas] (created (length us) w))
  = (Done finalDataUrl, w2) →
  fetchable env finalDataUrl = false →
  stitchImages env us w = (Thrown ErrFetch, w2).
Proof.
  intros Hne Hdec Hctx canvas Htr Hfetch.
  rewrite stitchImages_prefix by done. fold canvas.
  unfold stitchedOf in Htr. fold canvas in Htr.
  by rewrite (run_bind _ _ _ _ _ Htr), export_unfetchable.
Qed.

(** X6. When the final data URL cannot be fetched the run throws after the
    metadata step: the composite was encoded, but no object URL is created
    for a result and no object URL is revoked. *)
Theorem stitchImages_fetch_failure env us w finalDataUrl w2 :
  us ≠ [] → all_decode env us → context2d env = true →
  let canvas := paintedCanvas (planOf (imagesFrom env (next_url w) us)) in
  transplantExif env us (stitchedOf env us w)
    (emitted [CreateCanvas; ToDataURL canvas] (created (length us) w))
  = (Done finalDataUrl, w2) →
  fetchable env finalDataUrl = false →
  stitchImages env us w = (Thrown ErrFetch, w2)
  ∧ next_url w2 = next_url w + length us
  ∧ live_urls w2 = list_to_set (seq (next_url w) (length us)) ∪ live_urls w.
Proof.
  intros Hne Hdec Hctx canvas Htr Hfetch.
  split; [by apply (stitchImages_fetch_aborts env us w finalDataUrl)|].
  destruct (transplantExif_run env us (stitchedOf env us w)
              (emitted [CreateCanvas; ToDataURL canvas] (created (length us) w)))
    as (final & es & Htr' & _).
  rewrite Htr in Htr'. injection Htr' as _ ->. done.
Qed.

Lemma stitchImages_fetch_failure_witness :
  let env := {| decode := test_decode; context2d := true; encodeJpeg := λ _, "JPEG";
                fileDataURL := λ f, Some (file_bytes f); piexif := None;
                fetchable := λ _, false |} in
  ∃ w2, stitchImages env [upload "a" ""; upload "b" ""] initial_world
        = (Thrown ErrFetch, w2)
        ∧ next_url w2 = 2.
Proof.
  intros env.
  destruct (stitchImages_fetch_failure env [upload "a" ""; upload "b" ""]
              initial_world "JPEG"
              (emitted [Console Warn MsgNoPiexif]
                 (emitted [CreateCanvas;
                           ToDataURL (paintedCanvas
                                        (planOf [image 0 100 50; image 1 200 50]))]
                    (created 2 initial_world))))
    as (Hrun & Hnext & _).
  - done.
  - repeat constructor; by eexists.
  - reflexivity.
  - reflexivity.
  - reflexivity.
  - eexists. split; [exact Hrun|exact Hnext].
Defined.

(** The four ways a run on a non-empty list ends. *)
Lemma stitchImages_cases env us w :
  us ≠ [] →
  let canvas := paintedCanvas (planOf (imagesFrom env (next_url w) us)) in
  let w1 := emitted [CreateCanvas; ToDataURL canvas] (created (length us) w) in
  stitchImages env us w = (Thrown ErrImageLoad, created (length us) w)
  ∨ stitchImages env us w
    = (Thrown ErrNoContext, emitted [CreateCanvas] (created (length us) w))
  ∨ (∃ es, stitchImages env us w = (Thrown ErrFetch, emitted es w1))
  ∨ (∃ res es, stitchImages env us w
               = (Done res, revoked (seq (next_url w) (length us))
                              (created 1 (emitted es w1)))).
Proof.
  intros Hne canvas w1.
  destruct (decode_cases env us) as [Hdec|Hfail];
    [|left; by apply stitchImages_load_aborts].
  destruct (context2d env) eqn:Hctx;
    [|right; left; by apply stitchImages_no_context].
  destruct (transplantExif_run env us (stitchedOf env us w) w1)
    as (final & es & Htr & _).
  right. right. destruct (fetchable env final) eqn:Hfetch.
  - right. eexists _, es. by apply (stitchImages_success env us w final es).
  - left. exists es. by apply (stitchImages_fetch_aborts env us w final).
Qed.

Lemma stitchImages_grows_live_urls env us w o w' :
  fresh_urls w → stitchImages env us w = (o, w') →
  live_urls w ⊆ live_urls w' ∧ fresh_urls w' ∧ next_url w ≤ next_url w'.
Proof.
  intros Hfresh Hrun.
  assert (us = [] ∨ us ≠ []) as [->|Hne] by (destruct us; [by left|by right]).
  { cbn in Hrun. by injection Hrun as <- <-. }
  assert (∀ n es w0,
            fresh_urls w0 →
            live_urls w0 ⊆ live_urls (emitted es (created n w0))
            ∧ fresh_urls (emitted es (created n w0))
            ∧ next_url w0 ≤ next_url (emitted es (created n w0))) as Hcreated.
  { intros n es w0 H0. cbn [live_urls next_url emitted created].
    split; [set_solver|]. split; [|lia].
    intros u. cbn [live_urls next_url emitted created].
    rewrite elem_of_union, elem_of_list_to_set, elem_of_seq.
    intros [?|Hu]; [lia|]. specialize (H0 u Hu). lia. }
  destruct (stitchImages_cases env us w Hne)
    as [H|[H|[(es & H)|(res & es & H)]]];
    rewrite H in Hrun; injection Hrun as <- <-.
  - rewrite <- (emitted_nil (created _ w)). by apply Hcreated.
  - by apply Hcreated.
  - rewrite <- (emitted_nil (emitted es _)).
    generalize (length us). intros n.
    cbn [live_urls next_url emitted created].
    split; [set_solver|]. split; [|lia].
    intros u. cbn [live_urls next_url emitted created].
    rewrite elem_of_union, elem_of_list_to_set, elem_of_seq.
    intros [?|Hu]; [lia|]. specialize (Hfresh u Hu). lia.
  - generalize (length us). intros n.
    cbn [live_urls next_url emitted created revoked]. split; [|split; [|lia]].
    + intros u Hu. specialize (Hfresh u Hu).
      rewrite elem_of_difference, !elem_of_union, !elem_of_list_to_set, !elem_of_seq.
      split; [by right; right|lia].
    + intros u. cbn [live_urls next_url emitted created revoked].
      rewrite elem_of_difference, !elem_of_union, !elem_of_list_to_set, !elem_of_seq.
      intros [[?|[?|Hu]] ?]; [lia|lia|]. specialize (Hfresh u Hu). lia.
Qed.

(** X7. However a run ends, it revokes no object URL that was live before
    it started (the preview URLs of the page, for one), and it hands out
    serial numbers above all those in use. *)
Theorem stitchImages_keeps_foreign_urls env us w o w' :
  fresh_urls w → stitchImages env us w = (o, w') →
  live_urls w ⊆ live_urls w' ∧ fresh_urls w' ∧ next_url w ≤ next_url w'.
Proof. apply stitchImages_grows_live_urls. Qed.

Lemma stitchImages_keeps_foreign_urls_witness :
  let w := {| live_urls := {[0; 1]}; next_url := 2; trace := [] |} in
  live_urls w ⊆ live_urls (created 2 w).
Proof.
  intros w.
  apply (stitchImages_keeps_foreign_urls (test_env true None)
           [upload "a" ""; upload "bad" ""] w (Thrown ErrImageLoad) (created 2 w)).
  - intros u Hu. cbn in *. set_solver.
  - apply (stitchImages_load_aborts (test_env true None)
             [upload "a" ""; upload "bad" ""]).
    apply Exists_cons_tl, Exists_cons_hd. reflexivity.
Defined.

Lemma yOffset_total imgs :
  yOffset (imageDrawData (planOf imgs)) (length (imageDrawData (planOf imgs)))
  = totalHeight (planOf imgs).
Proof.
  unfold yOffset. rewrite take_ge by done.
  destruct imgs as [|first rest]; [done|].
  cbn [planOf]. by rewrite computeLayout_spec.
Qed.

(** X8. The two loops agree.  In a run whose images decode, with a 2D
    context, the last drawing on the canvas that is encoded is of the last
    image, at the target width, and its offset and its scaled height add up
    to the total height of the layout: the last image ends exactly at the
    total height. *)
Theorem images_tile_the_total_height env us w :
  us ≠ [] → all_decode env us → context2d env = true →
  let imgs := imagesFrom env (next_url w) us in
  let plan := planOf imgs in
  ∃ o w' canvas i y h,
    stitchImages env us w = (o, w')
    ∧ ToDataURL canvas ∈ trace w'
    ∧ last imgs = Some i
    ∧ last (canvas_ops canvas) = Some (DrawImage i zero y (targetWidth plan) h)
    ∧ add y h = totalHeight plan.
Proof.
  intros Hne Hdec Hctx imgs plan.
  destruct (stitchImages_encodes env us w Hne Hdec Hctx) as (o & w' & Hrun & Hin).
  fold imgs in Hin. fold plan in Hin.
  pose proof (planOf_img imgs) as Himg. fold plan in Himg.
  pose proof (yOffset_total imgs) as Htotal. fold plan in Htotal.
  set (ds := imageDrawData plan) in *.
  assert (∃ n, length ds = S n) as [n Hlen].
  { assert (length ds = length us) as ->.
    { rewrite <- (length_fmap img), Himg. unfold imgs. by apply imagesFrom_length. }
    destruct us; [done|]. by eexists. }
  destruct (lookup_lt_is_Some_2 ds n) as [d Hd]; [lia|].
  exists o, w', (paintedCanvas plan), (img d), (yOffset ds n), (scaledHeight d).
  split; [exact Hrun|]. split; [exact Hin|]. split; [|split].
  - rewrite <- Himg, last_lookup, length_fmap, Hlen. cbn [Init.Nat.pred].
    by rewrite list_lookup_fmap, Hd.
  - rewrite last_lookup. cbn [paintedCanvas canvas_ops length Init.Nat.pred].
    fold ds. rewrite length_imap, Hlen. cbn [lookup list_lookup].
    change (imap ?f ds !! n = ?x) with (imap f ds !! n = x).
    by rewrite list_lookup_imap, Hd.
  - rewrite <- Htotal, Hlen. symmetry. by apply yOffset_S.
Qed.

Lemma images_tile_the_total_height_witness :
  ∃ o w' canvas y h,
    stitchImages (test_env true None) [upload "a" ""; upload "c" ""] initial_world
    = (o, w')
    ∧ ToDataURL canvas ∈ trace w'
    ∧ last (canvas_ops canvas)
      = Some (DrawImage (image 1 200 51) zero y (of_Z 100) h)
    ∧ add y h = totalHeight (planOf [image 0 100 50; image 1 200 51]).
Proof.
  destruct (images_tile_the_total_height (test_env true None)
              [upload "a" ""; upload "c" ""] initial_world)
    as (o & w' & canvas & i & y & h & Hrun & Hin & Hi & Hlast & Hsum).
  - done.
  - repeat constructor; by eexists.
  - reflexivity.
  - vm_compute in Hi. injection Hi as <-.
    exists o, w', canvas, y, h.
    split; [exact Hrun|]. split; [exact Hin|]. split; [exact Hlast|exact Hsum].
Defined.

Section HeightsWithinOne.

Local Open Scope Q_scope.

Lemma trunc_nonneg_floor q : 0 <= q → trunc q = Qfloor q.
Proof.
  destruct q as [n d]. unfold Qle, trunc, Qfloor. cbn [Qnum Qden].
  intros Hn. apply Z.quot_div_nonneg; lia.
Qed.

Lemma Qfloor_half_up q :
  (Qfloor q <= Qfloor (q + (1 # 2)) <= Qfloor q + 1)%Z.
Proof.
  split.
  - apply Qfloor_resp_le. rewrite <- (Qplus_0_r q) at 1.
    by apply Qplus_le_r.
  - pose proof (Qfloor_le (q + (1 # 2))) as Hz.
    pose proof (Qlt_floor q) as HF.
    assert (inject_Z (Qfloor (q + (1 # 2))) < inject_Z (Qfloor q + 1) + (1 # 2)) as H.
    { eapply Qle_lt_trans; [exact Hz|]. by apply Qplus_lt_l. }
    revert H. generalize (Qfloor (q + (1 # 2))) (Qfloor q). intros z F.
    unfold Qlt, Qplus, inject_Z. cbn [Qnum Qden]. lia.
Qed.

(** The canvas height and the rounded total of one layout. *)
Lemma height_floor_and_round imgs :
  Forall positive_size imgs →
  ltb (totalHeight (planOf imgs)) (of_Z 2147483648) = true →
  ∃ q, totalHeight (planOf imgs) = Fin q
       ∧ Z.of_N (canvas_height (paintedCanvas (planOf imgs))) = Qfloor q
       ∧ round (totalHeight (planOf imgs)) = of_Z (Qfloor (q + (1 # 2)))
       ∧ (Qfloor q <= Qfloor (q + (1 # 2)) <= Qfloor q + 1)%Z.
Proof.
  intros Hpos Hlt.
  pose proof (yOffset_total imgs) as Htotal.
  pose proof (yOffset_nonneg (imageDrawData (planOf imgs))
                (length (imageDrawData (planOf imgs)))
                (planOf_positive imgs Hpos)) as (q & Hq & Hq0).
  cbn zeta in Htotal. rewrite Htotal in Hq.
  exists q. split; [exact Hq|].
  cbn [paintedCanvas canvas_height]. rewrite Hq in *.
  assert (q < inject_Z 2147483648) as Hq31.
  { cbn [ltb of_Z] in Hlt. apply negb_true_iff, not_true_iff_false in Hlt.
    apply Qnot_le_lt. by rewrite <- Qle_bool_iff. }
  assert (0 <= Qfloor q < 2147483648)%Z as HF.
  { split.
    - change 0%Z with (Qfloor 0). by apply Qfloor_resp_le.
    - assert (inject_Z (Qfloor q) < inject_Z 2147483648) as H.
      { eapply Qle_lt_trans; [apply Qfloor_le|exact Hq31]. }
      revert H. generalize (Qfloor q). intros F.
      unfold Qlt, inject_Z. cbn [Qnum Qden]. lia. }
  split; [|split; [reflexivity|apply Qfloor_half_up]].
  unfold canvas_dimension, to_unsigned_long. rewrite trunc_nonneg_floor by done.
  rewrite Z.mod_small by lia.
  destruct (N.leb_spec (Z.to_N (Qfloor q)) 2147483647) as [_|Hbig]; [|lia].
  by rewrite Z2N.id by lia.
Qed.

End HeightsWithinOne.

(** X9. Take a run that returns a result for images of positive natural
    size whose total height is below 2^31.  The canvas that is encoded has
    the total height rounded down as its height, the result reports the total
    height rounded half up, and so the reported height is the height of the
    canvas or one more. *)
Theorem reported_height_within_one_of_canvas env us w res w' :
  stitchImages env us w = (Done res, w') →
  let imgs := imagesFrom env (next_url w) us in
  Forall positive_size imgs →
  ltb (totalHeight (planOf imgs)) (of_Z 2147483648) = true →
  ∃ canvas q z,
    ToDataURL canvas ∈ trace w'
    ∧ totalHeight (planOf imgs) = Fin q
    ∧ Z.of_N (canvas_height canvas) = Qfloor q
    ∧ StitchResult.height res = of_Z z
    ∧ z = Qfloor (q + (1 # 2))%Q
    ∧ (Z.of_N (canvas_height canvas) <= z <= Z.of_N (canvas_height canvas) + 1)%Z.
Proof.
  intros Hrun imgs Hpos Hlt.
  destruct (stitchImages_done_inv env us w res w' Hrun) as (_ & _ & _ & _ & Hh & _).
  pose proof (stitchImages_done_encoded env us w res w' Hrun) as Henc.
  cbn zeta in Hh. fold imgs in Hh, Henc.
  destruct (height_floor_and_round imgs Hpos Hlt) as (q & Hq & Hcanvas & Hround & Hle).
  exists (paintedCanvas (planOf imgs)), q, (Qfloor (q + (1 # 2))%Q).
  split; [exact Henc|]. split; [exact Hq|]. split; [exact Hcanvas|].
  split; [by rewrite Hh|]. split; [reflexivity|]. by rewrite Hcanvas.
Qed.

Lemma reported_height_within_one_of_canvas_witness :
  ∃ res w' canvas,
    stitchImages (test_env true None) [upload "a" ""; upload "c" ""] initial_world
    = (Done res, w')
    ∧ ToDataURL canvas ∈ trace w'
    ∧ canvas_height canvas = 75%N
    ∧ StitchResult.height res = of_Z 76.
Proof.
  assert (stitchImages (test_env true None) [upload "a" ""; upload "c" ""]
            initial_world
          = (Done {| StitchResult.blob := {| blob_data := "JPEG" |};
                     StitchResult.url := 2;
                     StitchResult.width := of_Z 100;
                     StitchResult.height := of_Z 76 |},
             revoked [0; 1]
               (created 1
                  (emitted [Console Warn MsgNoPiexif]
                     (emitted [CreateCanvas;
                               ToDataURL (paintedCanvas
                                            (planOf [image 0 100 50; image 1 200 51]))]
                        (created 2 initial_world)))))) as Hrun.
  { apply (stitchImages_success (test_env true None) [upload "a" ""; upload "c" ""]
             initial_world "JPEG" [Console Warn MsgNoPiexif]); try reflexivity.
    - done.
    - repeat constructor; by eexists. }
  destruct (reported_height_within_one_of_canvas _ _ _ _ _ Hrun)
    as (canvas & q & z & Hin & Hq & Hcanvas & Hheight & Hz & _).
  - repeat constructor.
  - reflexivity.
  - vm_compute in Hq. injection Hq as <-.
    change (Z.of_N (canvas_height canvas) = 75%Z) in Hcanvas.
    eexists _, _, canvas. split; [exact Hrun|]. split; [exact Hin|].
    split; [lia|reflexivity].
Defined.

(** X10. All the metadata step does to the world is to write at most one
    console message: it creates and revokes no object URL, whatever the
    codec does. *)
Theorem transplantExif_only_logs env us stitchedDataUrl w :
  ∃ finalDataUrl w',
    transplantExif env us stitchedDataUrl w = (Done finalDataUrl, w')
    ∧ live_urls w' = live_urls w ∧ next_url w' = next_url w
    ∧ ∃ es, trace w' = trace w ++ es ∧ length es ≤ 1 ∧ Forall is_console es.
Proof.
  assert (∀ lvl msg, Forall is_console [Console lvl msg]) as Hone.
  { intros lvl msg. apply Forall_singleton. by exists lvl, msg. }
  assert (∀ final lvl msg,
            ∃ (finalDataUrl : string) w',
              (Done final, emitted [Console lvl msg] w) = (Done finalDataUrl, w')
              ∧ live_urls w' = live_urls w ∧ next_url w' = next_url w
              ∧ ∃ es, trace w' = trace w ++ es ∧ length es ≤ 1
                      ∧ Forall is_console es) as Hlogged.
  { intros final lvl msg. eexists _, _. split; [reflexivity|].
    split; [reflexivity|]. split; [reflexivity|].
    exists [Console lvl msg]. split; [reflexivity|]. split; [simpl; lia|apply Hone]. }
  unfold transplantExif, try_catch, readFileAsDataURL, await, call, console, emit.
  unfold mbind, M_bind, mret, M_ret, mthrow, M_throw.
  destruct us as [|u0 rest]; [apply Hlogged|].
  destruct (fileDataURL env (file u0)) as [first|]; [|apply Hlogged].
  destruct (piexif env) as [px|]; [|apply Hlogged].
  destruct (load px first) as [exifObj|e]; [|apply Hlogged].
  destruct (typeof_object exifObj).
  - destruct (dump px exifObj) as [exifBytes|e]; [|apply Hlogged].
    destruct (insert px exifBytes stitchedDataUrl) as [out|e]; apply Hlogged.
  - eexists _, _. split; [reflexivity|]. split; [reflexivity|]. split; [reflexivity|].
    exists []. split; [by rewrite app_nil_r|]. split; [simpl; lia|constructor].
Qed.

(** ** The uploader *)

Import App.

Lemma filter_image_typed files :
  let fs := List.filter (λ file, startsWith (file_type file) "image/") files in
  Forall image_typed fs ∧ fs `sublist_of` files
  ∧ ∀ f, f ∈ files → image_typed f → f ∈ fs.
Proof.
  induction files as [|f files (IH1 & IH2 & IH3)]; cbn zeta.
  - split; [constructor|]. split; [done|]. intros f Hf. by apply elem_of_nil in Hf.
  - cbn [List.filter]. destruct (startsWith (file_type f) "image/") eqn:Hf.
    + split; [by constructor|]. split; [by apply sublist_skip|].
      intros g Hg Hty. apply elem_of_cons in Hg as [->|Hg]; [by left|].
      right. by apply IH3.
    + split; [done|]. split; [by apply sublist_cons|].
      intros g Hg Hty. apply elem_of_cons in Hg as [->|Hg]; [|by apply IH3].
      unfold image_typed in Hty. congruence.
Qed.

(** X11. In client mode the uploader hands on exactly the files whose type
    starts with [image/], in their order, and never an empty list: when no
    file is an image it alerts instead.  In server mode it hands on every
    file. *)
Theorem uploader_passes_images_only files :
  match handleFiles client files with
  | FilesSelected fs =>
      fs ≠ [] ∧ Forall image_typed fs ∧ fs `sublist_of` files
      ∧ ∀ f, f ∈ files → image_typed f → f ∈ fs
  | ImagesOnlyAlert => Forall (λ f, ¬ image_typed f) files
  | Nothing => False
  end
  ∧ handleFiles server files = FilesSelected files.
Proof.
  split; [|done]. unfold handleFiles.
  destruct (filter_image_typed files) as (Hall & Hsub & Hin). cbn zeta in *.
  destruct (List.filter _ files) as [|f fs] eqn:Hfs.
  - cbn. apply Forall_forall. intros f Hf Hty. specialize (Hin f Hf Hty).
    by apply elem_of_nil in Hin.
  - cbn. done.
Qed.

(** ** Running the page *)

Lemma runP_bind {A B} (m : P A) (f : A → P B) pg a pg' :
  m pg = (Done a, pg') → (m ≫= f) pg = f a pg'.
Proof. intros H. unfold mbind, P_bind. by rewrite H. Qed.

Lemma page_eq (p1 p2 : Page) :
  browser p1 = browser p2 → randoms p1 = randoms p2 →
  alerts p1 = alerts p2 → logged p1 = logged p2 → p1 = p2.
Proof. destruct p1, p2; simpl; by intros -> -> -> ->. Qed.

Lemma created_created n w :
  created n (created 1 w) = created (S n) w.
Proof.
  apply world_eq; cbn [created live_urls next_url trace seq fmap list_fmap].
  - rewrite Nat.add_1_r, list_to_set_cons. set_solver.
  - lia.
  - by rewrite Nat.add_1_r, <- app_assoc.
Qed.

Lemma newImage_run host f pg :
  newImage host f pg
  = (Done {| UploadedImage.id := randomId host (randoms pg);
             UploadedImage.file := f;
             UploadedImage.previewUrl := blob_url (next_url (browser pg));
             UploadedImage.width := zero;
             UploadedImage.height := zero;
             UploadedImage.isVideo := Some (isVideoFile host f) |},
     uploaded 1 pg).
Proof.
  unfold newImage, mathRandomId, inBrowser, createObjectURL.
  unfold mbind, P_bind, mret, P_ret. cbn. f_equal.
  apply page_eq; cbn; [|lia|done|done].
  apply world_eq; cbn; [set_solver|lia|done].
Qed.

Lemma uploaded_uploaded n pg : uploaded n (uploaded 1 pg) = uploaded (S n) pg.
Proof.
  apply page_eq; cbn [uploaded browser randoms alerts logged]; [|lia|done|done].
  apply created_created.
Qed.

Lemma mapM_newImage host files pg :
  mapM (newImage host) files pg
  = (Done (newImagesFrom host (randoms pg) (next_url (browser pg)) files),
     uploaded (length files) pg).
Proof.
  revert pg. induction files as [|f files IH]; intros pg.
  - cbn. unfold mret, P_ret. f_equal. apply page_eq; cbn; [|lia|done|done].
    apply world_eq; cbn; [set_solver|lia|by rewrite app_nil_r].
  - change (mapM ?g (f :: files)) with (y ← g f; k ← mapM g files; mret (y :: k)).
    rewrite (runP_bind _ _ _ _ _ (newImage_run host f pg)).
    rewrite (runP_bind _ _ _ _ _ (IH _)).
    unfold mret, P_ret. cbn [newImagesFrom length]. f_equal.
    + f_equal. f_equal. cbn. f_equal; lia.
    + apply uploaded_uploaded.
Qed.

Lemma newImagesFrom_file host r u files :
  file <$> newImagesFrom host r u files = files.
Proof.
  revert r u. induction files as [|f files IH]; intros r u; [done|].
  cbn. by rewrite IH.
Qed.

Lemma newImagesFrom_previewUrl host r u files :
  UploadedImage.previewUrl <$> newImagesFrom host r u files
  = blob_url <$> seq u (length files).
Proof.
  revert r u. induction files as [|f files IH]; intros r u; [done|].
  cbn. by rewrite IH.
Qed.

Lemma newImagesFrom_id host r u files :
  UploadedImage.id <$> newImagesFrom host r u files
  = randomId host <$> seq r (length files).
Proof.
  revert r u. induction files as [|f files IH]; intros r u; [done|].
  cbn. by rewrite IH.
Qed.

Lemma handleFilesSelected_run host files st pg :
  handleFilesSelected host files st pg
  = (Done {| mode := mode st;
             images :=
               match mode st with
               | server =>
                   arraySort host
                     (λ a b, localeCompare host (file_name (file a))
                               (file_name (file b)))
                     (images st ++ newImagesFrom host (randoms pg)
                                     (next_url (browser pg)) files)
               | client =>
                   images st ++ newImagesFrom host (randoms pg)
                                  (next_url (browser pg)) files
               end;
             isProcessing := isProcessing st; result := None;
             backendUrl := backendUrl st |},
     uploaded (length files) pg).
Proof.
  unfold handleFilesSelected.
  by rewrite (runP_bind _ _ _ _ _ (mapM_newImage host files pg)).
Qed.

(** ** Adding files *)

(** X12. In client mode [handleFilesSelected] appends one entry per file,
    in the order of the files, after the entries already listed; each new
    entry gets an object URL of its own, which is live afterwards; the result
    shown is cleared. *)
Theorem upload_appends_in_client_mode host files st pg :
  mode st = client →
  ∃ st' pg' new,
    handleFilesSelected host files st pg = (Done st', pg')
    ∧ images st' = images st ++ new
    ∧ file <$> new = files
    ∧ UploadedImage.previewUrl <$> new
      = blob_url <$> seq (next_url (browser pg)) (length files)
    ∧ result st' = None ∧ mode st' = client
    ∧ live_urls (browser pg')
      = list_to_set (seq (next_url (browser pg)) (length files))
          ∪ live_urls (browser pg).
Proof.
  intros Hmode. eexists _, _, _. split; [apply handleFilesSelected_run|].
  rewrite Hmode. cbn [images result mode].
  split; [reflexivity|]. split; [apply newImagesFrom_file|].
  split; [apply newImagesFrom_previewUrl|]. done.
Qed.

Lemma upload_appends_in_client_mode_witness :
  let jpg := {| file_name := "a"; file_type := "image/jpeg"; file_bytes := "" |} in
  let st := {| mode := client; images := []; isProcessing := false;
               result := None; backendUrl := "" |} in
  ∃ st' pg' new,
    handleFilesSelected (test_host (test_env true None)) [jpg] st initial_page
    = (Done st', pg')
    ∧ images st' = [] ++ new ∧ file <$> new = [jpg]
    ∧ UploadedImage.previewUrl <$> new = blob_url <$> seq 0 1.
Proof.
  intros jpg st.
  destruct (upload_appends_in_client_mode (test_host (test_env true None)) [jpg]
              st initial_page eq_refl)
    as (st' & pg' & new & Hrun & Himages & Hfile & Hurl & _).
  by exists st', pg', new.
Defined.

(** X13. In server mode, with a sort that returns the elements it was
    given, the list after [handleFilesSelected] holds the entries listed
    before and one new entry per file, and nothing else. *)
Theorem upload_permutes_in_server_mode host files st pg :
  sort_permutes host → mode st = server →
  ∃ st' pg' new,
    handleFilesSelected host files st pg = (Done st', pg')
    ∧ images st' ≡ₚ images st ++ new
    ∧ file <$> new = files
    ∧ length (images st') = length (images st) + length files
    ∧ result st' = None.
Proof.
  intros Hsort Hmode. eexists _, _, _. split; [apply handleFilesSelected_run|].
  rewrite Hmode. cbn [images result].
  split; [apply Hsort|]. split; [apply newImagesFrom_file|]. split; [|done].
  rewrite (Permutation_length (Hsort _ _)), length_app. f_equal.
  rewrite <- (newImagesFrom_file host (randoms pg) (next_url (browser pg)) files) at 2.
  by rewrite length_fmap.
Qed.

Lemma test_host_sort_permutes e : sort_permutes (test_host e).
Proof. intros cmp l. reflexivity. Qed.

Lemma upload_permutes_in_server_mode_witness :
  let mov := {| file_name := "clip.mov"; file_type := "video/quicktime";
                file_bytes := "" |} in
  ∃ st' pg' new,
    handleFilesSelected (test_host (test_env true None)) [mov] initial_state
      initial_page = (Done st', pg')
    ∧ images st' ≡ₚ [] ++ new ∧ file <$> new = [mov].
Proof.
  intros mov.
  destruct (upload_permutes_in_server_mode (test_host (test_env true None)) [mov]
              initial_state initial_page (test_host_sort_permutes _) eq_refl)
    as (st' & pg' & new & Hrun & Himages & Hfile & _).
  exists st', pg', new. split; [exact Hrun|]. split; [exact Himages|exact Hfile].
Defined.

(** ** Revoking by URL string *)

Lemma blob_url_inj u v : blob_url u = blob_url v → u = v.
Proof.
  unfold blob_url. intros H. apply (inj pretty).
  revert H. generalize (pretty u) (pretty v). intros a b H.
  cbn in H. by injection H.
Qed.

Lemma forEach_revokeObjectURL urls w :
  forEach revokeObjectURL urls w = (Done (), revoked urls w).
Proof.
  revert w. induction urls as [|u urls IH]; intros w.
  - unfold forEach, mret, M_ret. f_equal. apply world_eq; simpl.
    + set_solver.
    + done.
    + by rewrite app_nil_r.
  - cbn [forEach]. unfold mbind, M_bind, revokeObjectURL at 1. rewrite IH.
    f_equal. apply world_eq; simpl.
    + set_solver.
    + done.
    + by rewrite <- app_assoc.
Qed.

Lemma revokeURL_run url w : revokeURL url w = (Done (), afterRevoke url w).
Proof. unfold revokeURL. apply forEach_revokeObjectURL. Qed.

Lemma elem_of_afterRevoke url w u :
  u ∈ live_urls (afterRevoke url w) ↔ u ∈ live_urls w ∧ blob_url u ≠ url.
Proof.
  unfold afterRevoke. cbn [live_urls revoked].
  rewrite elem_of_difference, elem_of_list_to_set, elem_of_elements, elem_of_filter.
  naive_solver.
Qed.

Lemma next_url_afterRevoke url w : next_url (afterRevoke url w) = next_url w.
Proof. reflexivity. Qed.

Lemma afterRevoke_unknown url w :
  (∀ u, u ∈ live_urls w → blob_url u ≠ url) → afterRevoke url w = w.
Proof.
  intros Hnone. unfold afterRevoke.
  assert (filter (λ u, blob_url u = url) (live_urls w) = ∅) as ->.
  { apply set_eq. intros u. rewrite elem_of_filter. set_solver. }
  rewrite elements_empty. apply world_eq; cbn; [set_solver|done|by rewrite app_nil_r].
Qed.

(** ** Removing an entry *)

Lemma withBrowser_same pg : withBrowser (browser pg) pg = pg.
Proof. by destruct pg. Qed.

Lemma removeImage_run id st pg :
  removeImage id st pg
  = (Done (without id st),
     match List.find (λ i, String.eqb (UploadedImage.id i) id) (images st) with
     | Some i => withBrowser (afterRevoke (UploadedImage.previewUrl i) (browser pg)) pg
     | None => pg
     end).
Proof.
  unfold removeImage.
  destruct (List.find _ (images st)) as [i|]; [|done].
  unfold mbind, P_bind, inBrowser. by rewrite revokeURL_run.
Qed.

Lemma List_filter_sublist {A} (f : A → bool) (l : list A) :
  List.filter f l `sublist_of` l.
Proof.
  induction l as [|x l IH]; [done|]. cbn.
  destruct (f x); [by apply sublist_skip|by apply sublist_cons].
Qed.

Lemma List_filter_all {A} (f : A → bool) (l : list A) :
  (∀ x, x ∈ l → f x = true) → List.filter f l = l.
Proof.
  induction l as [|x l IH]; intros H; [done|]. cbn.
  rewrite (H x) by left. f_equal. apply IH. intros y Hy. apply H. by right.
Qed.

Lemma List_find_none {A} (f : A → bool) (l : list A) :
  (∀ x, x ∈ l → f x = false) → List.find f l = None.
Proof.
  induction l as [|x l IH]; intros H; [done|]. cbn.
  rewrite (H x) by left. apply IH. intros y Hy. apply H. by right.
Qed.

Lemma elem_of_without id st i :
  i ∈ images (without id st) ↔ i ∈ images st ∧ UploadedImage.id i ≠ id.
Proof.
  cbn [without images]. rewrite !list_elem_of_In, filter_In.
  rewrite negb_true_iff, <- not_true_iff_false, String.eqb_eq. done.
Qed.

(** X14. [removeImage] never fails; afterwards no listed entry has the
    given id, every other entry is still listed, in the same order, and the
    result shown is cleared.  For an id that is not listed the list and the
    page are as before: nothing is revoked. *)
Theorem removeImage_drops_the_id id st pg :
  ∃ st' pg',
    removeImage id st pg = (Done st', pg')
    ∧ (∀ i, i ∈ images st' ↔ i ∈ images st ∧ UploadedImage.id i ≠ id)
    ∧ images st' `sublist_of` images st
    ∧ result st' = None ∧ mode st' = mode st
    ∧ ((∀ i, i ∈ images st → UploadedImage.id i ≠ id) →
       images st' = images st ∧ pg' = pg).
Proof.
  eexists _, _. split; [apply removeImage_run|].
  split; [apply elem_of_without|]. split; [apply List_filter_sublist|].
  split; [done|]. split; [done|]. intros Habsent. split.
  - apply List_filter_all. intros i Hi.
    apply negb_true_iff, not_true_iff_false. rewrite String.eqb_eq. by apply Habsent.
  - rewrite List_find_none; [done|]. intros i Hi.
    apply not_true_iff_false. rewrite String.eqb_eq. by apply Habsent.
Qed.

(** ** Moving an entry *)

Lemma swap_lookups {A} (l : list A) i j a b :
  i ≠ j → l !! i = Some a → l !! j = Some b →
  <[j := a]> (<[i := b]> l) !! i = Some b
  ∧ <[j := a]> (<[i := b]> l) !! j = Some a
  ∧ ∀ k, k ≠ i → k ≠ j → <[j := a]> (<[i := b]> l) !! k = l !! k.
Proof.
  intros Hij Ha Hb.
  apply lookup_lt_Some in Ha as Hi. apply lookup_lt_Some in Hb as Hj.
  split; [|split].
  - rewrite list_lookup_insert_ne by done. by apply list_lookup_insert_eq.
  - apply list_lookup_insert_eq. by rewrite length_insert.
  - intros k Hki Hkj. by rewrite !list_lookup_insert_ne.
Qed.

Lemma swap_adjacent_perm {A} (l : list A) i a b :
  l !! i = Some a → l !! S i = Some b → <[S i := a]> (<[i := b]> l) ≡ₚ l.
Proof.
  revert l. induction i as [|i IH]; intros l Ha Hb.
  - destruct l as [|x [|y l]]; try done.
    cbn in Ha, Hb. injection Ha as ->. injection Hb as ->. cbn. apply perm_swap.
  - destruct l as [|x l]; [done|]. cbn in Ha, Hb. cbn. apply perm_skip. by apply IH.
Qed.

Lemma moveImage_in_range index direction st :
  index < length (images st) →
  let target := match direction with up => index - 1 | down => index + 1 end in
  let atEdge := match direction with
                | up => index = 0
                | down => index = length (images st) - 1
                end in
  ∃ st',
    moveImage index direction st = Some st'
    ∧ images st' ≡ₚ images st
    ∧ (atEdge → st' = st)
    ∧ (¬ atEdge →
       images st' !! index = images st !! target
       ∧ images st' !! target = images st !! index
       ∧ (∀ k, k ≠ index → k ≠ target → images st' !! k = images st !! k)
       ∧ result st' = None).
Proof.
  intros Hindex target atEdge. unfold moveImage.
  destruct (lookup_lt_is_Some_2 (images st) index Hindex) as [a Ha].
  destruct direction; subst target atEdge; cbn beta iota.
  - destruct (Nat.eqb_spec index 0) as [->|Hne].
    { exists st. by repeat split. }
    destruct (lookup_lt_is_Some_2 (images st) (index - 1) ltac:(lia)) as [b Hb].
    rewrite Ha, Hb. eexists. split; [reflexivity|]. cbn [images result].
    destruct (swap_lookups (images st) index (index - 1) a b ltac:(lia) Ha Hb)
      as (H1 & H2 & H3).
    split; [|split; [done|]].
    + rewrite list_insert_insert_ne by lia.
      replace index with (S (index - 1)) at 1 by lia.
      apply swap_adjacent_perm; [done|]. by replace (S (index - 1)) with index by lia.
    + intros _. by repeat split.
  - destruct (Z.eqb_spec (Z.of_nat index) (Z.of_nat (length (images st)) - 1))
      as [Heq|Hne].
    { exists st. split; [done|]. split; [done|]. split; [done|]. intros Hn. lia. }
    destruct (lookup_lt_is_Some_2 (images st) (index + 1) ltac:(lia)) as [b Hb].
    rewrite Ha, Hb. eexists. split; [reflexivity|]. cbn [images result].
    destruct (swap_lookups (images st) index (index + 1) a b ltac:(lia) Ha Hb)
      as (H1 & H2 & H3).
    split; [|split; [intros ?; lia|]].
    + rewrite Nat.add_1_r in *. by apply swap_adjacent_perm.
    + intros _. by repeat split.
Qed.

(** X15. For a listed index [moveImage] never leaves the list type.  At
    the edge (up at the first entry, down at the last) the state is as before,
    result included; otherwise the entry and its neighbour change places,
    every other entry stays where it is, and the result shown is cleared. *)
Theorem moveImage_swaps_neighbours index direction st :
  index < length (images st) →
  let target := match direction with up => index - 1 | down => index + 1 end in
  let atEdge := match direction with
                | up => index = 0
                | down => index = length (images st) - 1
                end in
  ∃ st',
    moveImage index direction st = Some st'
    ∧ images st' ≡ₚ images st
    ∧ (atEdge → st' = st)
    ∧ (¬ atEdge →
       images st' !! index = images st !! target
       ∧ images st' !! target = images st !! index
       ∧ (∀ k, k ≠ index → k ≠ target → images st' !! k = images st !! k)
       ∧ result st' = None).
Proof. apply moveImage_in_range. Qed.

Lemma moveImage_swaps_neighbours_witness :
  let i0 := upload "a" "" in
  let i1 := upload "b" "" in
  let st := {| mode := client; images := [i0; i1]; isProcessing := false;
               result := None; backendUrl := "" |} in
  ∃ st', moveImage 1 up st = Some st' ∧ images st' ≡ₚ [i0; i1]
         ∧ images st' !! 0 = Some i1.
Proof.
  intros i0 i1 st.
  destruct (moveImage_swaps_neighbours 1 up st) as (st' & Hrun & Hperm & _ & Hswap).
  - simpl. lia.
  - exists st'. split; [exact Hrun|]. split; [exact Hperm|].
    destruct Hswap as (_ & H & _); [simpl; lia|exact H].
Defined.

(** X16. Moving an entry down and then moving it up from its new place
    gives the list back. *)
Theorem moveImage_down_then_up index st st1 :
  index + 1 < length (images st) →
  moveImage index down st = Some st1 →
  ∃ st2, moveImage (index + 1) up st1 = Some st2 ∧ images st2 = images st.
Proof.
  intros Hindex Hdown.
  destruct (moveImage_in_range index down st ltac:(lia))
    as (st1' & Hrun & Hperm & _ & Hswap).
  rewrite Hdown in Hrun. injection Hrun as <-.
  destruct Hswap as (H1 & H2 & H3 & _); [lia|].
  assert (length (images st1) = length (images st)) as Hlen
    by by apply Permutation_length.
  destruct (moveImage_in_range (index + 1) up st1 ltac:(lia))
    as (st2 & Hrun2 & _ & _ & Hswap2).
  destruct Hswap2 as (G1 & G2 & G3 & _); [lia|].
  exists st2. split; [done|].
  replace (index + 1 - 1) with index in * by lia.
  apply list_eq. intros k.
  destruct (decide (k = index)) as [->|Hk1]; [by rewrite G2, H2|].
  destruct (decide (k = index + 1)) as [->|Hk2]; [by rewrite G1, H1|].
  rewrite G3, H3 by done. done.
Qed.

Lemma moveImage_down_then_up_witness :
  let i0 := upload "a" "" in
  let i1 := upload "b" "" in
  let st := {| mode := client; images := [i0; i1]; isProcessing := false;
               result := None; backendUrl := "" |} in
  ∃ st2, moveImage 1 up
           {| mode := client; images := [i1; i0]; isProcessing := false;
              result := None; backendUrl := "" |} = Some st2
         ∧ images st2 = [i0; i1].
Proof.
  intros i0 i1 st.
  apply (moveImage_down_then_up 0 st).
  - simpl. lia.
  - reflexivity.
Defined.

(** ** Clearing the list and switching the mode *)

Lemma forEach_revokeURL imgs w :
  forEach (λ i, revokeURL (UploadedImage.previewUrl i)) imgs w
  = (Done (), afterRevokes (UploadedImage.previewUrl <$> imgs) w).
Proof.
  revert w. induction imgs as [|i imgs IH]; intros w; [done|].
  cbn [forEach]. unfold mbind, M_bind. rewrite revokeURL_run.
  by rewrite IH.
Qed.

Lemma elem_of_afterRevokes urls w u :
  u ∈ live_urls (afterRevokes urls w) ↔ u ∈ live_urls w ∧ blob_url u ∉ urls.
Proof.
  revert w. induction urls as [|url urls IH]; intros w.
  - cbn. rewrite elem_of_nil. naive_solver.
  - cbn [afterRevokes foldl]. fold (afterRevokes urls (afterRevoke url w)).
    rewrite IH, elem_of_afterRevoke, not_elem_of_cons. naive_solver.
Qed.

Lemma next_url_afterRevokes urls w : next_url (afterRevokes urls w) = next_url w.
Proof.
  revert w. induction urls as [|url urls IH]; intros w; [done|].
  cbn [afterRevokes foldl]. fold (afterRevokes urls (afterRevoke url w)).
  by rewrite IH.
Qed.

Lemma clearAll_run confirmed st pg :
  clearAll confirmed st pg
  = if confirmed
    then (Done (cleared st),
          withBrowser (afterRevokes (UploadedImage.previewUrl <$> images st)
                         (browser pg)) pg)
    else (Done st, pg).
Proof.
  destruct confirmed; [|done]. unfold clearAll, mbind, P_bind, inBrowser.
  by rewrite forEach_revokeURL.
Qed.

(** X17. A declined [clearAll] changes nothing.  A confirmed one empties
    the list, clears the result shown and revokes the preview URL of every
    listed entry, and no other object URL. *)
Theorem clearAll_revokes_the_previews st pg :
  clearAll false st pg = (Done st, pg)
  ∧ ∃ st' pg',
      clearAll true st pg = (Done st', pg')
      ∧ images st' = [] ∧ result st' = None ∧ mode st' = mode st
      ∧ next_url (browser pg') = next_url (browser pg)
      ∧ ∀ u, u ∈ live_urls (browser pg')
             ↔ u ∈ live_urls (browser pg)
               ∧ blob_url u ∉ UploadedImage.previewUrl <$> images st.
Proof.
  split; [done|]. eexists _, _. split; [apply (clearAll_run true)|].
  split; [done|]. split; [done|]. split; [done|].
  split; [apply next_url_afterRevokes|]. intros u. apply elem_of_afterRevokes.
Qed.

(** X18. [toggleMode] on an empty list switches the mode and nothing
    else, and doing it twice gives the state back.  On a non-empty list it
    asks first: declined, nothing changes; accepted, the mode is switched, and
    the list is cleared only if the second dialog, the one of [clearAll], is
    accepted too. *)
Theorem toggleMode_asks_twice confirmSwitch confirmClear st pg :
  (images st = [] →
   toggleMode confirmSwitch confirmClear st pg = (Done (switched st), pg)
   ∧ toggleMode confirmSwitch confirmClear (switched st) pg = (Done st, pg))
  ∧ (images st ≠ [] →
     toggleMode false confirmClear st pg = (Done st, pg)
     ∧ toggleMode true false st pg = (Done (switched st), pg)
     ∧ ∃ pg', toggleMode true true st pg = (Done (switched (cleared st)), pg')
              ∧ images (switched (cleared st)) = []
              ∧ mode (switched (cleared st)) = otherMode (mode st)).
Proof.
  split.
  - intros Hempty. unfold toggleMode. cbn [switched images]. rewrite Hempty.
    cbn. unfold mret, P_ret, switched. rewrite Hempty. split; [done|].
    destruct st as [[] imgs ? ? ?]; cbn in *; by subst.
  - intros Hne. unfold toggleMode.
    destruct (images st) as [|i imgs] eqn:Himages; [done|]. cbn [length Nat.ltb Nat.leb negb].
    split; [done|]. split; [done|].
    eexists. split; [|done].
    rewrite (runP_bind _ _ _ _ _ (clearAll_run true st pg)). reflexivity.
Qed.

Lemma toggleMode_asks_twice_witness :
  let st := {| mode := server; images := [upload "a" ""]; isProcessing := false;
               result := None; backendUrl := "" |} in
  toggleMode true false st initial_page = (Done (switched st), initial_page)
  ∧ images (switched st) = [upload "a" ""] ∧ mode (switched st) = client.
Proof.
  intros st. split; [|done].
  apply (proj2 (toggleMode_asks_twice true false st initial_page)). done.
Defined.

(** ** Stitching from the page *)

Lemma length_eqb_nil {A} (l : list A) : l ≠ [] → (length l =? 0) = false.
Proof. by destruct l. Qed.

Lemma handleStitch_client_run host st pg :
  mode st = client → images st ≠ [] →
  handleStitch host st pg
  = match stitchImages (env host) (images st) (browser pg) with
    | (Done res, w') =>
        (Done (finished st (Some (ClientResult res))), withBrowser w' pg)
    | (Thrown e, w') =>
        (Done (finished st None),
         {| browser := w'; randoms := randoms pg;
            alerts := alerts pg ++ [AlertStitchFailed];
            logged := logged pg ++ [StitchError e] |})
    end.
Proof.
  intros Hmode Hne. unfold handleStitch.
  rewrite length_eqb_nil, Hmode by done.
  unfold tryCatch, mbind, P_bind, inBrowser.
  by destruct (stitchImages (env host) (images st) (browser pg)) as [[res|e] w'].
Qed.

(** X19. In client mode, on a non-empty list, [handleStitch] never throws
    and ends with [isProcessing] false.  When [stitchImages] returns a result
    it becomes the result shown; when it throws, no result is shown, the error
    is written to the console and one alert is raised.  The list is as
    before. *)
Theorem handleStitch_client_settles host st pg :
  mode st = client → images st ≠ [] →
  ∃ st' pg',
    handleStitch host st pg = (Done st', pg')
    ∧ isProcessing st' = false ∧ images st' = images st ∧ mode st' = client
    ∧ match stitchImages (env host) (images st) (browser pg) with
      | (Done res, w') =>
          result st' = Some (ClientResult res) ∧ browser pg' = w'
          ∧ alerts pg' = alerts pg ∧ logged pg' = logged pg
      | (Thrown e, w') =>
          result st' = None ∧ browser pg' = w'
          ∧ alerts pg' = alerts pg ++ [AlertStitchFailed]
          ∧ logged pg' = logged pg ++ [StitchError e]
      end.
Proof.
  intros Hmode Hne. rewrite handleStitch_client_run by done.
  destruct (stitchImages (env host) (images st) (browser pg)) as [[res|e] w'];
    eexists _, _; by repeat split.
Qed.

Lemma handleStitch_client_settles_witness :
  let st := {| mode := client; images := [upload "a" ""; upload "bad" ""];
               isProcessing := false; result := None; backendUrl := "" |} in
  ∃ st' pg',
    handleStitch (test_host (test_env true None)) st initial_page = (Done st', pg')
    ∧ isProcessing st' = false ∧ result st' = None
    ∧ alerts pg' = [AlertStitchFailed]
    ∧ logged pg' = [StitchError ErrImageLoad].
Proof.
  intros st.
  destruct (handleStitch_client_settles (test_host (test_env true None)) st
              initial_page eq_refl ltac:(done))
    as (st' & pg' & Hrun & Hproc & _ & _ & Hcase).
  exists st', pg'. split; [exact Hrun|]. split; [exact Hproc|].
  change (stitchImages _ _ _)
    with (stitchImages (test_env true None) [upload "a" ""; upload "bad" ""]
            initial_world) in Hcase.
  rewrite (stitchImages_load_aborts (test_env true None)
             [upload "a" ""; upload "bad" ""] initial_world) in Hcase.
  - by destruct Hcase as (? & _ & ? & ?).
  - apply Exists_cons_tl, Exists_cons_hd. reflexivity.
Defined.

Lemma stitchImages_never_ErrNoImages env us w w' :
  us ≠ [] → stitchImages env us w ≠ (Thrown ErrNoImages, w').
Proof.
  intros Hne Hrun.
  destruct (stitchImages_cases env us w Hne)
    as [H|[H|[(es & H)|(res & es & H)]]]; by rewrite H in Hrun.
Qed.

(** X20. The empty-input error of [stitchImages] cannot be reached from
    the page: [handleStitch] does nothing at all on an empty list, and on a
    non-empty one the error it may write to the console is never that one. *)
Theorem handleStitch_never_stitches_nothing host st pg :
  (images st = [] → handleStitch host st pg = (Done st, pg))
  ∧ ∀ o pg', handleStitch host st pg = (o, pg') →
             StitchError ErrNoImages ∈ logged pg' →
             StitchError ErrNoImages ∈ logged pg.
Proof.
  split.
  { intros Hempty. unfold handleStitch. by rewrite Hempty. }
  intros o pg' Hrun Hin.
  assert (images st = [] ∨ images st ≠ []) as [Hempty|Hne]
    by (destruct (images st); [by left|by right]).
  { unfold handleStitch in Hrun. rewrite Hempty in Hrun.
    cbn in Hrun. by injection Hrun as _ <-. }
  destruct (mode st) eqn:Hmode.
  - rewrite handleStitch_client_run in Hrun by done.
    destruct (stitchImages (env host) (images st) (browser pg)) as [[res|e] w']
      eqn:Hstitch; injection Hrun as _ <-; [done|].
    cbn [logged] in Hin. apply elem_of_app in Hin as [Hin|Hin]; [done|].
    apply list_elem_of_singleton in Hin. injection Hin as <-.
    by apply stitchImages_never_ErrNoImages in Hstitch.
  - unfold handleStitch in Hrun. rewrite length_eqb_nil, Hmode in Hrun by done.
    unfold mbind, P_bind, consoleError, alert, mret, P_ret in Hrun.
    destruct (backend host _ _) as [message|errText|status ? ? ? ?];
      [| |destruct (String.eqb status "success")];
      injection Hrun as _ <-; try done;
      cbn [logged] in Hin; apply elem_of_app in Hin as [Hin|Hin]; try done;
      by apply list_elem_of_singleton in Hin.
Qed.

(** X21. In server mode, on a non-empty list, [handleStitch] never throws,
    ends with [isProcessing] false and leaves the browser world alone: no
    object URL is created or revoked and nothing is drawn.  A result is shown
    exactly when the backend replied with status [success]; its URLs are the
    backend URL followed by the paths of the reply.  Otherwise one alert is
    raised. *)
Theorem handleStitch_server_settles host st pg :
  mode st = server → images st ≠ [] →
  ∃ st' pg',
    handleStitch host st pg = (Done st', pg')
    ∧ isProcessing st' = false ∧ images st' = images st
    ∧ browser pg' = browser pg
    ∧ match backend host (backendUrl st +:+ "/stitch-live") (file <$> images st) with
      | Json "success" jpg_url mov_url width height =>
          result st'
          = Some (LiveResult (backendUrl st +:+ jpg_url) (backendUrl st +:+ jpg_url)
                    (backendUrl st +:+ mov_url) width height)
          ∧ alerts pg' = alerts pg
      | _ => result st' = None ∧ length (alerts pg') = S (length (alerts pg))
      end.
Proof.
  intros Hmode Hne. unfold handleStitch.
  rewrite length_eqb_nil, Hmode by done.
  unfold mbind, P_bind, consoleError, alert, mret, P_ret.
  destruct (backend host _ _) as [message|errText|status ? ? ? ?].
  - eexists _, _. repeat split. cbn. rewrite length_app. simpl. lia.
  - eexists _, _. repeat split. cbn. rewrite length_app. simpl. lia.
  - destruct (String.eqb_spec status "success") as [->|Hstatus].
    + eexists _, _. by repeat split.
    + eexists _, _. repeat (split; [reflexivity|]).
      assert (result (finished st None) = None
              ∧ length (alerts pg ++ [AlertBackendFailed UnknownResponse])
                = S (length (alerts pg))) as Hfail.
      { split; [done|]. rewrite length_app. simpl. lia. }
      cbn [alerts].
      repeat (match goal with
              | |- context [match ?x with _ => _ end] => destruct x; try done
              end).
Qed.

Lemma handleStitch_server_settles_witness :
  let st := {| mode := server; images := [upload "clip.mov" ""];
               isProcessing := false; result := None; backendUrl := "http://b" |} in
  ∃ st' pg',
    handleStitch (test_host (test_env true None)) st initial_page = (Done st', pg')
    ∧ isProcessing st' = false ∧ browser pg' = initial_world.
Proof.
  intros st.
  destruct (handleStitch_server_settles (test_host (test_env true None)) st
              initial_page eq_refl ltac:(done))
    as (st' & pg' & Hrun & Hproc & _ & Hbrowser & _).
  by exists st', pg'.
Defined.

(** ** The preview URLs of the listed images stay live *)

Lemma NoDup_fmap_inj_on {A B} (f : A → B) (l : list A) x y :
  NoDup (f <$> l) → x ∈ l → y ∈ l → f x = f y → x = y.
Proof.
  induction l as [|z l IH]; intros Hnd Hx Hy Hxy.
  - by apply elem_of_nil in Hx.
  - cbn in Hnd. apply NoDup_cons in Hnd as [Hz Hnd].
    apply elem_of_cons in Hx as [->|Hx]; apply elem_of_cons in Hy as [->|Hy].
    + done.
    + exfalso. apply Hz. rewrite Hxy. by apply list_elem_of_fmap_2.
    + exfalso. apply Hz. rewrite <- Hxy. by apply list_elem_of_fmap_2.
    + by apply IH.
Qed.

Lemma previews_ok_perm imgs imgs' w :
  imgs' ≡ₚ imgs → previews_ok imgs w → previews_ok imgs' w.
Proof.
  intros Hperm (Hfresh & Hnd & Hlive). split; [done|]. split.
  - by rewrite Hperm.
  - intros i Hi. apply Hlive. by rewrite <- Hperm.
Qed.

Lemma previews_ok_sublist imgs imgs' w :
  imgs' `sublist_of` imgs → previews_ok imgs w → previews_ok imgs' w.
Proof.
  intros Hsub (Hfresh & Hnd & Hlive). split; [done|]. split.
  - eapply sublist_NoDup; [exact Hnd|by apply fmap_sublist].
  - intros i Hi. apply Hlive. by eapply elem_of_sublist.
Qed.

Lemma previews_ok_grow imgs w w' :
  live_urls w ⊆ live_urls w' → fresh_urls w' →
  previews_ok imgs w → previews_ok imgs w'.
Proof.
  intros Hsub Hfresh' (_ & Hnd & Hlive). split; [done|]. split; [done|].
  intros i Hi. destruct (Hlive i Hi) as (u & Hu & Hurl). exists u. split; [|done].
  by apply Hsub.
Qed.

Lemma previews_ok_nil w : fresh_urls w → previews_ok [] w.
Proof.
  intros Hfresh. split; [done|]. split; [constructor|].
  intros i Hi. by apply elem_of_nil in Hi.
Qed.

Lemma fresh_urls_afterRevokes urls w :
  fresh_urls w → fresh_urls (afterRevokes urls w).
Proof.
  intros Hfresh u Hu. rewrite next_url_afterRevokes.
  apply elem_of_afterRevokes in Hu as [Hu _]. by apply Hfresh.
Qed.

Lemma previews_ok_upload host r files imgs w :
  previews_ok imgs w →
  previews_ok (imgs ++ newImagesFrom host r (next_url w) files)
    (created (length files) w).
Proof.
  intros (Hfresh & Hnd & Hlive).
  set (new := newImagesFrom host r (next_url w) files).
  assert (∀ i, i ∈ new →
               ∃ u, next_url w ≤ u < next_url w + length files
                    ∧ UploadedImage.previewUrl i = blob_url u) as Hnew.
  { intros i Hi. apply (list_elem_of_fmap_2 UploadedImage.previewUrl) in Hi.
    unfold new in Hi. rewrite newImagesFrom_previewUrl in Hi.
    apply list_elem_of_fmap in Hi as (u & Hurl & Hu).
    apply elem_of_seq in Hu. by exists u. }
  split; [|split].
  - intros u. cbn [live_urls next_url created].
    rewrite elem_of_union, elem_of_list_to_set, elem_of_seq.
    intros [?|Hu]; [lia|]. specialize (Hfresh u Hu). lia.
  - rewrite fmap_app. apply NoDup_app. split; [done|]. split.
    + intros url Hold Hin. unfold new in Hin.
      rewrite newImagesFrom_previewUrl in Hin.
      apply list_elem_of_fmap in Hin as (v & -> & Hv). apply elem_of_seq in Hv.
      apply list_elem_of_fmap in Hold as (i & Hurl & Hi).
      destruct (Hlive i Hi) as (u & Hu & Hurl').
      rewrite Hurl' in Hurl. apply blob_url_inj in Hurl as ->.
      specialize (Hfresh u Hu). lia.
    + unfold new. rewrite newImagesFrom_previewUrl.
      apply NoDup_fmap_2; [|apply NoDup_seq].
      intros u v. apply blob_url_inj.
  - intros i Hi. cbn [live_urls created].
    apply elem_of_app in Hi as [Hi|Hi].
    + destruct (Hlive i Hi) as (u & Hu & Hurl). exists u. split; [set_solver|done].
    + destruct (Hnew i Hi) as (u & Hu & Hurl). exists u. split; [|done].
      rewrite elem_of_union, elem_of_list_to_set, elem_of_seq. by left.
Qed.

Lemma previews_live_upload host files st pg st' pg' :
  sort_permutes host → previews_live st pg →
  handleFilesSelected host files st pg = (Done st', pg') →
  previews_live st' pg'.
Proof.
  intros Hsort Hinv Hrun. rewrite handleFilesSelected_run in Hrun.
  injection Hrun as <- <-. unfold previews_live. cbn [images browser uploaded].
  destruct (mode st).
  - by apply previews_ok_upload.
  - eapply previews_ok_perm; [apply Hsort|]. by apply previews_ok_upload.
Qed.

Lemma previews_live_remove id st pg st' pg' :
  previews_live st pg → removeImage id st pg = (Done st', pg') →
  previews_live st' pg'.
Proof.
  intros Hinv Hrun. rewrite removeImage_run in Hrun. injection Hrun as <- <-.
  destruct (List.find _ (images st)) as [i0|] eqn:Hfind.
  - apply find_some in Hfind as [Hi0 Hid]. apply list_elem_of_In in Hi0.
    apply String.eqb_eq in Hid.
    destruct Hinv as (Hfresh & Hnd & Hlive).
    unfold previews_live. cbn [browser withBrowser]. split; [|split].
    + intros u Hu. apply elem_of_afterRevoke in Hu as [Hu _]. by apply Hfresh.
    + eapply sublist_NoDup; [exact Hnd|apply fmap_sublist, List_filter_sublist].
    + intros i Hi. apply elem_of_without in Hi as [Hi Hne].
      destruct (Hlive i Hi) as (u & Hu & Hurl). exists u. split; [|done].
      apply elem_of_afterRevoke. split; [done|]. rewrite <- Hurl. intros Heq.
      apply (NoDup_fmap_inj_on _ _ _ _ Hnd Hi Hi0) in Heq. congruence.
  - eapply previews_ok_sublist; [|exact Hinv]. apply List_filter_sublist.
Qed.

Lemma moveImage_perm index direction st st' :
  moveImage index direction st = Some st' → images st' ≡ₚ images st.
Proof.
  intros Hmove.
  destruct (decide (index < length (images st))) as [Hlt|Hge].
  - destruct (moveImage_in_range index direction st Hlt) as (st1 & Hrun & Hperm & _).
    rewrite Hmove in Hrun. by injection Hrun as <-.
  - unfold moveImage in Hmove.
    rewrite (lookup_ge_None_2 (images st) index) in Hmove by lia.
    destruct (match direction with up => _ | down => _ end); [|done].
    by injection Hmove as <-.
Qed.

Lemma previews_live_clear confirmed st pg st' pg' :
  previews_live st pg → clearAll confirmed st pg = (Done st', pg') →
  previews_live st' pg'.
Proof.
  intros Hinv Hrun. rewrite clearAll_run in Hrun.
  destruct confirmed; injection Hrun as <- <-; [|done].
  apply previews_ok_nil, fresh_urls_afterRevokes. by destruct Hinv.
Qed.

Lemma previews_live_toggle confirmSwitch confirmClear st pg st' pg' :
  previews_live st pg →
  toggleMode confirmSwitch confirmClear st pg = (Done st', pg') →
  previews_live st' pg'.
Proof.
  intros Hinv Hrun. unfold toggleMode in Hrun.
  destruct (0 <? length (images st)); [|by injection Hrun as <- <-].
  destruct confirmSwitch; cbn [negb] in Hrun; [|by injection Hrun as <- <-].
  unfold mbind, P_bind in Hrun. rewrite clearAll_run in Hrun.
  destruct confirmClear; injection Hrun as <- <-; [|done].
  apply previews_ok_nil, fresh_urls_afterRevokes. by destruct Hinv.
Qed.

Lemma previews_live_stitch host st pg st' pg' :
  previews_live st pg → handleStitch host st pg = (Done st', pg') →
  previews_live st' pg'.
Proof.
  intros Hinv Hrun.
  assert (images st = [] ∨ images st ≠ []) as [Hempty|Hne]
    by (destruct (images st); [by left|by right]).
  { unfold handleStitch in Hrun. rewrite Hempty in Hrun.
    cbn in Hrun. by injection Hrun as <- <-. }
  destruct (mode st) eqn:Hmode.
  - rewrite handleStitch_client_run in Hrun by done.
    destruct (stitchImages (env host) (images st) (browser pg)) as [o w'] eqn:Hstitch.
    destruct (stitchImages_grows_live_urls _ _ _ _ _ (proj1 Hinv) Hstitch)
      as (Hsub & Hfresh' & _).
    destruct o; injection Hrun as <- <-; by eapply previews_ok_grow.
  - unfold handleStitch in Hrun. rewrite length_eqb_nil, Hmode in Hrun by done.
    unfold mbind, P_bind, consoleError, alert, mret, P_ret in Hrun.
    destruct (backend host _ _) as [message|errText|status ? ? ? ?];
      [| |destruct (String.eqb status "success")];
      by injection Hrun as <- <-.
Qed.

Lemma previews_live_step host s s' :
  sort_permutes host → step host s s' →
  previews_live s.1 s.2 → previews_live s'.1 s'.2.
Proof.
  intros Hsort Hstep.
  destruct Hstep as [files st pg st' pg' Hrun|id st pg st' pg' Hrun
                    |index direction st pg st' Hrun|confirmed st pg st' pg' Hrun
                    |c1 c2 st pg st' pg' Hrun|st pg st' pg' Hrun];
    cbn [fst snd]; intros Hinv.
  - unfold onUpload in Hrun. destruct (handleDrop (mode st) files) as [fs| |].
    + by eapply previews_live_upload.
    + by injection Hrun as <- <-.
    + by injection Hrun as <- <-.
  - by eapply previews_live_remove.
  - eapply previews_ok_perm; [by eapply moveImage_perm|done].
  - by eapply previews_live_clear.
  - by eapply previews_live_toggle.
  - by eapply previews_live_stitch.
Qed.

Lemma previews_live_steps host s s' :
  sort_permutes host → rtc (step host) s s' →
  previews_live s.1 s.2 → previews_live s'.1 s'.2.
Proof.
  intros Hsort Hsteps. induction Hsteps as [s|s1 s2 s3 Hstep _ IH]; [done|].
  intros Hinv. apply IH. by eapply previews_live_step.
Qed.

(** X22. Whatever the page is used for (uploads, removals, moves, clearing,
    switching the mode, stitching, in any order), with a sort that returns the
    elements it was given, every listed image keeps a preview URL of its own
    that is still live: no handler revokes the preview of an image that stays
    listed, and the stitch revokes only the URLs it created. *)
Theorem previews_stay_live host st pg :
  sort_permutes host →
  rtc (step host) (initial_state, initial_page) (st, pg) →
  previews_live st pg.
Proof.
  intros Hsort Hsteps.
  apply (previews_live_steps host (initial_state, initial_page) (st, pg) Hsort Hsteps).
  apply previews_ok_nil. intros u Hu. cbn in Hu. set_solver.
Qed.

Lemma previews_stay_live_witness :
  let jpg := {| file_name := "a"; file_type := "image/jpeg"; file_bytes := "" |} in
  let host := test_host (test_env true None) in
  previews_live
    {| mode := server;
       images := newImagesFrom host 0 0 [jpg];
       isProcessing := false; result := None;
       backendUrl := "http://localhost:8000" |}
    (uploaded 1 initial_page).
Proof.
  intros jpg host.
  apply (previews_stay_live host); [apply test_host_sort_permutes|].
  eapply rtc_l; [|apply rtc_refl].
  apply (step_upload host (Some [jpg])). reflexivity.
Defined.

(** X23. With ids that are all different, removing a listed entry revokes
    exactly its preview URL: afterwards that URL is not live, every other
    live object URL still is, and the entry is gone from the list. *)
Theorem removeImage_revokes_its_preview id st pg st' pg' i0 :
  NoDup (UploadedImage.id <$> images st) →
  i0 ∈ images st → UploadedImage.id i0 = id →
  removeImage id st pg = (Done st', pg') →
  (i0 ∉ images st')
  ∧ ∀ u, u ∈ live_urls (browser pg')
         ↔ u ∈ live_urls (browser pg) ∧ blob_url u ≠ UploadedImage.previewUrl i0.
Proof.
  intros Hids Hi0 Hid Hrun. rewrite removeImage_run in Hrun. injection Hrun as <- <-.
  split.
  - rewrite elem_of_without. naive_solver.
  - destruct (List.find _ (images st)) as [i|] eqn:Hfind.
    + apply find_some in Hfind as [Hi Hidi]. apply list_elem_of_In in Hi.
      apply String.eqb_eq in Hidi.
      assert (i = i0) as ->.
      { apply (NoDup_fmap_inj_on UploadedImage.id (images st)); congruence. }
      intros u. cbn [browser withBrowser]. apply elem_of_afterRevoke.
    + apply list_elem_of_In in Hi0.
      apply (find_none _ _ Hfind i0) in Hi0. by apply String.eqb_neq in Hi0.
Qed.

Lemma removeImage_revokes_its_preview_witness :
  let jpg := {| file_name := "a"; file_type := "image/jpeg"; file_bytes := "" |} in
  let host := test_host (test_env true None) in
  let i0 := {| UploadedImage.id := "id0"; UploadedImage.file := jpg;
               UploadedImage.previewUrl := blob_url 0;
               UploadedImage.width := zero; UploadedImage.height := zero;
               UploadedImage.isVideo := Some false |} in
  let st := {| mode := client; images := [i0]; isProcessing := false;
               result := None; backendUrl := "" |} in
  (i0 ∉ images (without "id0" st))
  ∧ (0 ∈ live_urls (afterRevoke (blob_url 0) (created 1 initial_world))
     ↔ 0 ∈ live_urls (created 1 initial_world) ∧ blob_url 0 ≠ blob_url 0).
Proof.
  intros jpg host i0 st.
  cut ((i0 ∉ images (without "id0" st))
       ∧ ∀ u, u ∈ live_urls (afterRevoke (blob_url 0) (created 1 initial_world))
              ↔ u ∈ live_urls (created 1 initial_world) ∧ blob_url u ≠ blob_url 0).
  { intros [Hgone Hlive]. split; [exact Hgone|apply Hlive]. }
  apply (removeImage_revokes_its_preview "id0" st (uploaded 1 initial_page)
           (without "id0" st)
           (withBrowser (afterRevoke (blob_url 0) (created 1 initial_world))
              (uploaded 1 initial_page)) i0).
  - repeat constructor. set_solver.
  - by left.
  - reflexivity.
  - apply removeImage_run.
Defined.
